(** * Offline synchronisation queue of the attendance kiosk

    A shallow embedding of [src/services/OfflineSyncManager.js] and the
    properties of its queue, retry policy, state flags and conflict
    resolver.

    Conventions of the embedding.

    - The manager object ([this]) is the record [Manager].  Everything the
      manager talks to is collected in [World]: the JS heap holding the
      queue-item objects, the two AsyncStorage slots, the console, the
      events handed to subscribers, the requests sent with [fetch] and
      the handlers registered with NetInfo.
    - Queue items are mutable objects that [syncAll] reaches both through
      the live queue and through its snapshot.  The queue is therefore a
      list of heap locations and an item is mutated in the heap.
    - What the platform decides (the clock, [Math.random], the answer of
      the network, the fate of a storage call) is an explicit argument of
      the operation that asks for it.
    - An [async] method is run to its end before the next call starts; an
      un-awaited [this.syncAll()] is run at the place of the call.
    - A rejected promise or a [throw] is the [Throw] case of [Result]. *)

From stdpp Require Import gmap strings list fin_maps pretty.

Set Warnings "-register-all".

Local Open Scope Z_scope.

(** ** JavaScript values *)

(** JSON-like data: payloads and the records given to [resolveConflict]. *)
Inductive value :=
  | VNull
  | VBool (b : bool)
  | VNum (n : Z)
  | VStr (s : string)
  | VObj (fields : gmap string value).

(** A JS object used as a record: its own fields; [None] is [undefined]. *)
Abbreviation record := (gmap string value).

(** [true], [false] or [null]: the values NetInfo reports and the values
    [this.isOnline] takes. *)
Abbreviation jsbool := (option bool).

Definition truthy (b : jsbool) : bool :=
  match b with
  | Some true => true
  | _ => false
  end.

(** [a && b] returns [a] when [a] is falsy and [b] otherwise. *)
Definition js_and (a b : jsbool) : jsbool :=
  if truthy a then b else a.

(** Outcome of an operation that can throw (or of a promise that can be
    rejected); the argument of [Throw] is [error.message]. *)
Inductive Result (A : Type) :=
  | Ok (a : A)
  | Throw (message : string).
Arguments Ok {A} a.
Arguments Throw {A} message.

(** Fate of one AsyncStorage call: it resolves, or it is rejected. *)
Inductive Outcome :=
  | Resolves
  | Rejects (message : string).

(** ** Data model *)

Abbreviation loc := positive.

(** The object literal built by [addToQueue], with [lastError] added by
    the first failed delivery. *)
Record QueueItem := mkQueueItem {
  id : Z;
  timestamp : string;
  operation : string;
  data : value;
  url : string;
  method : string;
  retries : Z;
  status : string;
  lastError : option string;
}.

(** The argument of [addToQueue]: [{type, data, url, method?}]. *)
Record Operation := mkOperation {
  op_type : string;
  op_data : value;
  op_url : string;
  op_method : option string;
}.

(** One entry of [results.errors]: [{id, operation, error}]. *)
Record SyncError := mkSyncError {
  err_id : Z;
  err_operation : string;
  err_error : string;
}.

(** The [results] object of one drain pass. *)
Record SyncResult := mkSyncResult {
  total : nat;
  succeeded : nat;
  failed : nat;
  errors : list SyncError;
}.

(** What [syncAll] resolves to: the rejection object
    [{success: false, reason}] or the [results] of the pass. *)
Inductive SyncReturn :=
  | Rejected (reason : string)
  | Completed (results : SyncResult).

(** Events handed to subscribers. *)
Inductive Event :=
  | EOnline (online : jsbool)
  | ESyncStarted
  | ESyncCompleted (results : SyncResult).

(** Text held by the slot [QUEUE_KEY], up to what [JSON.parse] makes of
    it: the serialisation of an array of items, the empty string, or a
    text that [JSON.parse] rejects.  The manager is the only writer of the
    slot and writes arrays of items only. *)
Inductive QueueDoc :=
  | QItems (items : list QueueItem)
  | QEmptyText
  | QCorrupt.

(** Text held by the slot [SYNC_STATUS_KEY]: [{timestamp, results}]. *)
Record StatusDoc := mkStatusDoc {
  st_timestamp : string;
  st_results : SyncResult;
}.

Definition QUEUE_KEY : string := "offline_sync_queue".
Definition SYNC_STATUS_KEY : string := "last_sync_status".

(** A subscriber is a function object, compared by identity. *)
Abbreviation Listener := nat.

(** The fields set by the constructor. *)
Record Manager := mkManager {
  isOnline : jsbool;
  syncQueue : list loc;
  syncInProgress : bool;
  listeners : list Listener;
  retryAttempts : gmap Z Z;
  maxRetries : Z;
}.

(** What the manager acts on. *)
Record World := mkWorld {
  heap : gmap loc QueueItem;
  queueSlot : option QueueDoc;
  statusSlot : option StatusDoc;
  console : list string;
  emitted : list (Listener * Event);
  requests : list loc;
  netHandlers : nat;
}.

Record State := mkState {
  this : Manager;
  world : World;
}.

(** [new OfflineSyncManager()] *)
Definition constructor : Manager :=
  {| isOnline := Some true;
     syncQueue := [];
     syncInProgress := false;
     listeners := [];
     retryAttempts := ∅;
     maxRetries := 3 |}.

(** ** Field updates *)

Definition set_isOnline (b : jsbool) (st : State) : State :=
  let m := this st in
  {| this := {| isOnline := b; syncQueue := syncQueue m;
                syncInProgress := syncInProgress m; listeners := listeners m;
                retryAttempts := retryAttempts m; maxRetries := maxRetries m |};
     world := world st |}.

Definition set_syncQueue (q : list loc) (st : State) : State :=
  let m := this st in
  {| this := {| isOnline := isOnline m; syncQueue := q;
                syncInProgress := syncInProgress m; listeners := listeners m;
                retryAttempts := retryAttempts m; maxRetries := maxRetries m |};
     world := world st |}.

Definition set_syncInProgress (b : bool) (st : State) : State :=
  let m := this st in
  {| this := {| isOnline := isOnline m; syncQueue := syncQueue m;
                syncInProgress := b; listeners := listeners m;
                retryAttempts := retryAttempts m; maxRetries := maxRetries m |};
     world := world st |}.

Definition set_listeners (ls : list Listener) (st : State) : State :=
  let m := this st in
  {| this := {| isOnline := isOnline m; syncQueue := syncQueue m;
                syncInProgress := syncInProgress m; listeners := ls;
                retryAttempts := retryAttempts m; maxRetries := maxRetries m |};
     world := world st |}.

Definition set_heap (h : gmap loc QueueItem) (st : State) : State :=
  let w := world st in
  {| this := this st;
     world := {| heap := h; queueSlot := queueSlot w; statusSlot := statusSlot w;
                 console := console w; emitted := emitted w;
                 requests := requests w; netHandlers := netHandlers w |} |}.

Definition set_queueSlot (d : option QueueDoc) (st : State) : State :=
  let w := world st in
  {| this := this st;
     world := {| heap := heap w; queueSlot := d; statusSlot := statusSlot w;
                 console := console w; emitted := emitted w;
                 requests := requests w; netHandlers := netHandlers w |} |}.

Definition set_statusSlot (d : option StatusDoc) (st : State) : State :=
  let w := world st in
  {| this := this st;
     world := {| heap := heap w; queueSlot := queueSlot w; statusSlot := d;
                 console := console w; emitted := emitted w;
                 requests := requests w; netHandlers := netHandlers w |} |}.

Definition log_error (line : string) (st : State) : State :=
  let w := world st in
  {| this := this st;
     world := {| heap := heap w; queueSlot := queueSlot w;
                 statusSlot := statusSlot w;
                 console := console w ++ [line]; emitted := emitted w;
                 requests := requests w; netHandlers := netHandlers w |} |}.

Definition emit (evs : list (Listener * Event)) (st : State) : State :=
  let w := world st in
  {| this := this st;
     world := {| heap := heap w; queueSlot := queueSlot w;
                 statusSlot := statusSlot w;
                 console := console w; emitted := emitted w ++ evs;
                 requests := requests w; netHandlers := netHandlers w |} |}.

Definition log_request (l : loc) (st : State) : State :=
  let w := world st in
  {| this := this st;
     world := {| heap := heap w; queueSlot := queueSlot w;
                 statusSlot := statusSlot w;
                 console := console w; emitted := emitted w;
                 requests := requests w ++ [l]; netHandlers := netHandlers w |} |}.

Definition add_netHandler (st : State) : State :=
  let w := world st in
  {| this := this st;
     world := {| heap := heap w; queueSlot := queueSlot w;
                 statusSlot := statusSlot w;
                 console := console w; emitted := emitted w;
                 requests := requests w; netHandlers := S (netHandlers w) |} |}.

(** The item objects of the live queue, in queue order. *)
Definition queueItems (st : State) : list QueueItem :=
  omap (λ l, heap (world st) !! l) (syncQueue (this st)).

(** ** Listener registry *)

(** [subscribe(listener)]: push; the returned closure is [unsubscribe]. *)
Definition subscribe (listener : Listener) (st : State) : State :=
  set_listeners (listeners (this st) ++ [listener]) st.

Definition unsubscribe (listener : Listener) (st : State) : State :=
  set_listeners (filter (λ l, l ≠ listener) (listeners (this st))) st.

(** [notifyListeners(event)]: every subscriber is called, in order. *)
Definition notifyListeners (event : Event) (st : State) : State :=
  emit (map (λ l, (l, event)) (listeners (this st))) st.

(** ** Persistence *)

(** [saveQueue()]: the whole queue is serialised and stored; a rejected
    write is caught and logged. *)
Definition saveQueue (write : Outcome) (st : State) : State :=
  match write with
  | Resolves => set_queueSlot (Some (QItems (queueItems st))) st
  | Rejects message => log_error ("Failed to save sync queue: " +:+ message) st
  end.

(** [JSON.parse] builds new objects: one fresh location per item. *)
Fixpoint allocItems (items : list QueueItem) (h : gmap loc QueueItem)
  : list loc * gmap loc QueueItem :=
  match items with
  | [] => ([], h)
  | item :: rest =>
      let l := fresh (dom h) in
      let '(ls, h') := allocItems rest (<[l := item]> h) in
      (l :: ls, h')
  end.

(** [loadQueue()]: a stored text replaces the queue; [null] and the empty
    string are falsy and leave it as it is; a rejected read and a text
    that does not parse are caught, logged, and empty the queue. *)
Definition loadQueue (read : Outcome) (st : State) : State :=
  match read with
  | Rejects message =>
      set_syncQueue [] (log_error ("Failed to load sync queue: " +:+ message) st)
  | Resolves =>
      match queueSlot (world st) with
      | None => st
      | Some QEmptyText => st
      | Some (QItems items) =>
          let '(ls, h) := allocItems items (heap (world st)) in
          set_syncQueue ls (set_heap h st)
      | Some QCorrupt =>
          set_syncQueue [] (log_error "Failed to load sync queue: SyntaxError" st)
      end
  end.

(** [getLastSyncStatus()]: the stored status, [null] when absent or when
    the read fails. *)
Definition getLastSyncStatus (read : Outcome) (st : State) : option StatusDoc :=
  match read with
  | Resolves => statusSlot (world st)
  | Rejects _ => None
  end.

(** ** Delivery *)

(** What [fetch] gives back: a rejection (transport error), or a response
    with its [ok] flag, status line and the result of [response.json()]
    (the parsed body, or the message of the parse error). *)
Inductive FetchResult :=
  | NetworkError (message : string)
  | Response (ok : bool) (status : Z) (statusText : string)
             (json : value + string).

(** [syncItem(item)], given the answer of the network to its request. *)
Definition syncItem (answer : FetchResult) : Result value :=
  match answer with
  | NetworkError message => Throw message
  | Response ok status statusText json =>
      if ok then
        match json with
        | inl body => Ok body
        | inr message => Throw message
        end
      else Throw ("HTTP " +:+ pretty status +:+ ": " +:+ statusText)
  end.

(** What the platform decides during one drain pass: the answer to the
    request made for the object at [l] (built from the item [l] holds at
    that moment), the fate of the two storage writes, and the clock. *)
Record DrainEnv := mkDrainEnv {
  fetch : loc → QueueItem → FetchResult;
  queueWrite : Outcome;
  statusWrite : Outcome;
  clock : string;
}.

(** ** Synchronisation *)

(** The test of the loop body:
    [status === 'pending' || (status === 'failed' && retries < maxRetries)]. *)
Definition eligible (maxR : Z) (item : QueueItem) : bool :=
  bool_decide (status item = "pending")
  || (bool_decide (status item = "failed") && bool_decide (retries item < maxR)).

(** [this.syncQueue = this.syncQueue.filter(i => i.id !== x)] *)
Definition dropId (x : Z) (st : State) : State :=
  set_syncQueue
    (filter (λ l, id <$> heap (world st) !! l ≠ Some x) (syncQueue (this st)))
    st.

(** The [catch] branch's mutation of the item:
    [retries++], [status = 'failed'], [lastError = error.message]. *)
Definition markFailed (message : string) (item : QueueItem) : QueueItem :=
  {| id := id item; timestamp := timestamp item; operation := operation item;
     data := data item; url := url item; method := method item;
     retries := retries item + 1; status := "failed";
     lastError := Some message |}.

Definition countSucceeded (r : SyncResult) : SyncResult :=
  {| total := total r; succeeded := S (succeeded r); failed := failed r;
     errors := errors r |}.

Definition countFailed (e : SyncError) (r : SyncResult) : SyncResult :=
  {| total := total r; succeeded := succeeded r; failed := S (failed r);
     errors := errors r ++ [e] |}.

(** One iteration of [for (const item of itemsToSync)], for the object at
    [l]. *)
Definition syncStep (env : DrainEnv) (acc : State * SyncResult) (l : loc)
  : State * SyncResult :=
  let '(st, results) := acc in
  match heap (world st) !! l with
  | None => acc
  | Some item =>
      if eligible (maxRetries (this st)) item then
        let st := log_request l st in
        match syncItem (fetch env l item) with
        | Ok _ =>
            (dropId (id item) st, countSucceeded results)
        | Throw message =>
            let item' := markFailed message item in
            let st := set_heap (<[l := item']> (heap (world st))) st in
            let results :=
              countFailed {| err_id := id item'; err_operation := operation item';
                             err_error := message |} results in
            if bool_decide (maxRetries (this st) ≤ retries item')
            then (dropId (id item') st, results)
            else (st, results)
        end
      else acc
  end.

(** The guard of [syncAll]: online and no pass under way. *)
Definition canDrain (st : State) : bool :=
  truthy (isOnline (this st)) && negb (syncInProgress (this st)).

(** The loop of [syncAll] over the snapshot [itemsToSync]. *)
Definition drainLoop (env : DrainEnv) (st : State) : State * SyncResult :=
  foldl (syncStep env)
        (st, {| total := length (syncQueue (this st)); succeeded := 0;
                failed := 0; errors := [] |})
        (syncQueue (this st)).

(** [syncAll()] *)
Definition syncAll (env : DrainEnv) (st : State) : State * Result SyncReturn :=
  if negb (truthy (isOnline (this st))) || syncInProgress (this st) then
    (st, Ok (Rejected (if syncInProgress (this st)
                       then "sync_in_progress" else "offline")))
  else
    let st := set_syncInProgress true st in
    let st := notifyListeners ESyncStarted st in
    let '(st, results) := drainLoop env st in
    let st := saveQueue (queueWrite env) st in
    match statusWrite env with
    | Rejects message => (st, Throw message)
    | Resolves =>
        let st := set_statusSlot
                    (Some {| st_timestamp := clock env; st_results := results |})
                    st in
        let st := set_syncInProgress false st in
        let st := notifyListeners (ESyncCompleted results) st in
        (st, Ok (Completed results))
    end.

(** [forceSync()] *)
Definition forceSync (env : DrainEnv) (st : State) : State * Result SyncReturn :=
  if negb (truthy (isOnline (this st))) then
    (st, Throw "Cannot sync while offline")
  else syncAll env st.

(** [checkOnlineStatus()] *)
Definition checkOnlineStatus (st : State) : jsbool := isOnline (this st).

(** [getQueueItems()]: a copy of the array, sharing the objects. *)
Definition getQueueItems (st : State) : list loc := syncQueue (this st).

(** ** Queue management *)

(** What the platform decides during [addToQueue]: the number
    [Date.now() + Math.random()], the clock reading, the fate of the
    write, and the drain pass started when online. *)
Record EnqueueEnv := mkEnqueueEnv {
  newId : Z;
  nowIso : string;
  saveOutcome : Outcome;
  drain : DrainEnv;
}.

(** [operation.method || 'POST']: [undefined] and the empty string are
    falsy. *)
Definition methodOrPost (m : option string) : string :=
  match m with
  | None => "POST"
  | Some s => if decide (s = "") then "POST" else s
  end.

Definition newQueueItem (env : EnqueueEnv) (op : Operation) : QueueItem :=
  {| id := newId env;
     timestamp := nowIso env;
     operation := op_type op;
     data := op_data op;
     url := op_url op;
     method := methodOrPost (op_method op);
     retries := 0;
     status := "pending";
     lastError := None |}.

(** [addToQueue(operation)]; the result is the returned id. *)
Definition addToQueue (env : EnqueueEnv) (op : Operation) (st : State)
  : State * Z :=
  let queueItem := newQueueItem env op in
  let l := fresh (dom (heap (world st))) in
  let st := set_heap (<[l := queueItem]> (heap (world st))) st in
  let st := set_syncQueue (syncQueue (this st) ++ [l]) st in
  let st := saveQueue (saveOutcome env) st in
  let st := if truthy (isOnline (this st)) then (syncAll (drain env) st).1 else st in
  (st, id queueItem).

(** [clearQueue()] *)
Definition clearQueue (write : Outcome) (st : State) : State :=
  saveQueue write (set_syncQueue [] st).

(** [removeQueueItem(id)] *)
Definition removeQueueItem (write : Outcome) (x : Z) (st : State) : State :=
  saveQueue write (dropId x st).

(** [getQueueStatus()]: [{total, pending, failed, syncing}]. *)
Record QueueStatus := mkQueueStatus {
  qs_total : nat;
  qs_pending : nat;
  qs_failed : nat;
  qs_syncing : bool;
}.

Definition getQueueStatus (st : State) : QueueStatus :=
  {| qs_total := length (syncQueue (this st));
     qs_pending := length (filter (λ i, status i = "pending") (queueItems st));
     qs_failed := length (filter (λ i, status i = "failed") (queueItems st));
     qs_syncing := syncInProgress (this st) |}.

(** ** Network monitoring *)

(** The state object NetInfo reports; both flags may be [null]. *)
Record NetState := mkNetState {
  isConnected : jsbool;
  isInternetReachable : jsbool;
}.

(** The callback given to [NetInfo.addEventListener]. *)
Definition onNetInfoChange (env : DrainEnv) (state : NetState) (st : State)
  : State :=
  let wasOnline := isOnline (this st) in
  let st := set_isOnline (js_and (isConnected state) (isInternetReachable state)) st in
  let st := notifyListeners (EOnline (isOnline (this st))) st in
  if negb (truthy wasOnline) && truthy (isOnline (this st))
  then (syncAll env st).1
  else st.

(** [initialize()]: [read] is the fate of the storage read in
    [loadQueue], [probe] the outcome of [NetInfo.fetch()]. *)
Definition initialize (read : Outcome) (probe : Result NetState) (st : State)
  : State * Result jsbool :=
  let st := loadQueue read st in
  let st := add_netHandler st in
  match probe with
  | Throw message => (st, Throw message)
  | Ok state =>
      let st := set_isOnline
                  (js_and (isConnected state) (isInternetReachable state)) st in
      (st, Ok (isOnline (this st)))
  end.

(** ** Conflict resolution *)

Section ConflictResolution.

(** [Date.parse] of the platform: the time value (milliseconds since the
    epoch) of a date string, [None] when the result is [NaN]. *)
Variable dateParse : string → option Z.





End ConflictResolution.

(** ** Calls on the manager *)

(** One call from outside, with what the platform decides during it. *)
Inductive Call :=
  | CInitialize (read : Outcome) (probe : Result NetState)
  | CNetInfo (env : DrainEnv) (state : NetState)
  | CSubscribe (listener : Listener)
  | CUnsubscribe (listener : Listener)
  | CAddToQueue (env : EnqueueEnv) (op : Operation)
  | CSyncAll (env : DrainEnv)
  | CForceSync (env : DrainEnv)
  | CClearQueue (write : Outcome)
  | CRemoveQueueItem (write : Outcome) (x : Z).

Definition exec (c : Call) (st : State) : State :=
  match c with
  | CInitialize read probe => (initialize read probe st).1
  | CNetInfo env state => onNetInfoChange env state st
  | CSubscribe l => subscribe l st
  | CUnsubscribe l => unsubscribe l st
  | CAddToQueue env op => (addToQueue env op st).1
  | CSyncAll env => (syncAll env st).1
  | CForceSync env => (forceSync env st).1
  | CClearQueue write => clearQueue write st
  | CRemoveQueueItem write x => removeQueueItem write x st
  end.

Definition run (calls : list Call) (st : State) : State :=
  foldl (λ st c, exec c st) st calls.

(** A sequence of drain passes. *)
Definition runPasses (envs : list DrainEnv) (st : State) : State :=
  foldl (λ st env, (syncAll env st).1) st envs.

(** A sequence of [addToQueue] calls; the returned ids, in call order. *)
Fixpoint enqueueAll (calls : list (EnqueueEnv * Operation)) (st : State)
  : State * list Z :=
  match calls with
  | [] => (st, [])
  | (env, op) :: rest =>
      let '(st1, x) := addToQueue env op st in
      let '(st2, xs) := enqueueAll rest st1 in
      (st2, x :: xs)
  end.

(** ** Predicates on states *)

(** The id of the object at [l]. *)
Definition idAt (h : gmap loc QueueItem) (l : loc) : option Z :=
  id <$> h !! l.

(** The queue holds each object once, every object of the queue is
    allocated, and no two of them carry the same [id]. *)
Record wf (st : State) : Prop := mkWf {
  wf_nodup : NoDup (syncQueue (this st));
  wf_alloc : ∀ l, l ∈ syncQueue (this st) → is_Some (heap (world st) !! l);
  wf_ids : ∀ l1 l2, l1 ∈ syncQueue (this st) → l2 ∈ syncQueue (this st) →
           idAt (heap (world st)) l1 = idAt (heap (world st)) l2 → l1 = l2;
}.

(** Every object of the queue is allocated. *)
Definition allocated (st : State) : Prop :=
  ∀ l, l ∈ syncQueue (this st) → is_Some (heap (world st) !! l).

(** Every object of [q] holds, in the heap [h], an item satisfying [P]. *)
Definition liveInv (P : QueueItem → Prop) (h : gmap loc QueueItem) (q : list loc)
  : Prop :=
  ∀ l item, l ∈ q → h !! l = Some item → P item.

(** The stored queue, when there is one, holds items satisfying [P]. *)
Definition storedInv (P : QueueItem → Prop) (slot : option QueueDoc) : Prop :=
  ∀ items, slot = Some (QItems items) → Forall P items.

(** Every item of the queue, live or stored, satisfies [P] at the
    configured maximum. *)
Definition queueInv (P : Z → QueueItem → Prop) (st : State) : Prop :=
  liveInv (P (maxRetries (this st))) (heap (world st)) (syncQueue (this st))
  ∧ storedInv (P (maxRetries (this st))) (queueSlot (world st)).

(** No item of the queue, live or stored, has more retries than the
    maximum. *)
Definition bounded (st : State) : Prop :=
  queueInv (λ maxR item, retries item ≤ maxR) st.

(** Every item of the queue, live or stored, will be tried by the next
    pass. *)
Definition allEligible (st : State) : Prop :=
  queueInv (λ maxR item, eligible maxR item = true) st.

(** The manager's flags and registry are the same in both states. *)
Definition sameFlags (st st' : State) : Prop :=
  isOnline (this st') = isOnline (this st)
  ∧ syncInProgress (this st') = syncInProgress (this st)
  ∧ listeners (this st') = listeners (this st)
  ∧ retryAttempts (this st') = retryAttempts (this st)
  ∧ maxRetries (this st') = maxRetries (this st).

(** Storage, console, delivered events and NetInfo handlers are the same
    in both states. *)
Definition sameOutside (st st' : State) : Prop :=
  queueSlot (world st') = queueSlot (world st)
  ∧ statusSlot (world st') = statusSlot (world st)
  ∧ console (world st') = console (world st)
  ∧ emitted (world st') = emitted (world st)
  ∧ netHandlers (world st') = netHandlers (world st).

(** ** What a pass does *)

(** The delivery of the object at [l] fails, whatever the item holds. *)
Definition failsFor (env : DrainEnv) (l : loc) : Prop :=
  ∀ item, ∃ message, syncItem (fetch env l item) = Throw message.

(** Every pass of [envs], started from [st], runs (it is not rejected)
    and fails to deliver the object at [l]. *)
Fixpoint failedPasses (l : loc) (envs : list DrainEnv) (st : State) : Prop :=
  match envs with
  | [] => True
  | env :: rest =>
      canDrain st = true ∧ failsFor env l
      ∧ failedPasses l rest (syncAll env st).1
  end.

(** What one pass does with the object at [l], read off the item it holds
    when the pass starts. *)
Inductive Fate :=
  | Skipped
  | Delivered
  | FailedKept (message : string)
  | FailedEvicted (message : string).

Definition fate (env : DrainEnv) (maxR : Z) (l : loc) (item : QueueItem) : Fate :=
  if eligible maxR item then
    match syncItem (fetch env l item) with
    | Ok _ => Delivered
    | Throw message =>
        if bool_decide (maxR ≤ retries item + 1)
        then FailedEvicted message else FailedKept message
    end
  else Skipped.

Definition fateAt (env : DrainEnv) (maxR : Z) (h : gmap loc QueueItem) (l : loc)
  : Fate :=
  match h !! l with
  | Some item => fate env maxR l item
  | None => Skipped
  end.

Definition isAttempted (f : Fate) : bool :=
  match f with Skipped => false | _ => true end.

Definition isDelivered (f : Fate) : bool :=
  match f with Delivered => true | _ => false end.

Definition isFailed (f : Fate) : bool :=
  match f with FailedKept _ | FailedEvicted _ => true | _ => false end.

Definition isFailedKept (f : Fate) : bool :=
  match f with FailedKept _ => true | _ => false end.

Definition failure (f : Fate) : option string :=
  match f with
  | FailedKept m | FailedEvicted m => Some m
  | _ => None
  end.

Definition staysQueued (f : Fate) : bool :=
  match f with Skipped | FailedKept _ => true | _ => false end.

(** The entry of [results.errors] for the object at [l], when its delivery
    failed. *)
Definition errorOf (env : DrainEnv) (maxR : Z) (h : gmap loc QueueItem) (l : loc)
  : option SyncError :=
  match h !! l with
  | Some item =>
      (λ m, {| err_id := id item; err_operation := operation item;
               err_error := m |}) <$> failure (fate env maxR l item)
  | None => None
  end.

(** The item the object at [l] holds after the pass. *)
Definition itemAfter (env : DrainEnv) (maxR : Z) (l : loc) (item : QueueItem)
  : QueueItem :=
  match failure (fate env maxR l item) with
  | Some m => markFailed m item
  | None => item
  end.

(** The objects of the queue for which [f] holds of their fate in the
    pass [env] started in [st]. *)
Definition withFate (f : Fate → bool) (env : DrainEnv) (st : State) : list loc :=
  filter (λ l, f (fateAt env (maxRetries (this st)) (heap (world st)) l) = true)
         (syncQueue (this st)).

(** The three stages of a pass that runs: what [syncAll] does before the
    loop, and after it. *)
Definition beginPass (st : State) : State :=
  notifyListeners ESyncStarted (set_syncInProgress true st).

Definition endPass (env : DrainEnv) (acc : State * SyncResult)
  : State * Result SyncReturn :=
  let st := saveQueue (queueWrite env) acc.1 in
  match statusWrite env with
  | Rejects message => (st, Throw message)
  | Resolves =>
      (notifyListeners (ESyncCompleted acc.2)
         (set_syncInProgress false
            (set_statusSlot
               (Some {| st_timestamp := clock env; st_results := acc.2 |}) st)),
       Ok (Completed acc.2))
  end.

(** The events of the start and of the end of a pass. *)
Definition startedEvents (st : State) : list (Listener * Event) :=
  map (λ l, (l, ESyncStarted)) (listeners (this st)).

Definition completedEvents (results : SyncResult) (st : State)
  : list (Listener * Event) :=
  map (λ l, (l, ESyncCompleted results)) (listeners (this st)).

(** What the loop of [syncAll] has done once it has gone through [todo],
    the rest of a snapshot [pre ++ todo] whose objects held the items of
    [h0] when their turn came. *)
Record LoopDone (env : DrainEnv) (maxR : Z) (h0 : gmap loc QueueItem)
       (pre todo : list loc) (st : State) (res : SyncResult)
       (st' : State) (res' : SyncResult) : Prop := mkLoopDone {
  ld_queue : syncQueue (this st')
             = pre ++ filter (λ l, staysQueued (fateAt env maxR h0 l) = true) todo;
  ld_heap : ∀ l, heap (world st') !! l
                 = if decide (l ∈ todo) then itemAfter env maxR l <$> h0 !! l
                   else heap (world st) !! l;
  ld_requests : requests (world st')
                = requests (world st)
                  ++ filter (λ l, isAttempted (fateAt env maxR h0 l) = true) todo;
  ld_total : total res' = total res;
  ld_succeeded : succeeded res'
                 = (succeeded res
                    + length (filter (λ l, isDelivered (fateAt env maxR h0 l) = true)
                                     todo))%nat;
  ld_failed : failed res'
              = (failed res
                 + length (filter (λ l, is_Some (failure (fateAt env maxR h0 l)))
                                  todo))%nat;
  ld_errors : errors res' = errors res ++ omap (errorOf env maxR h0) todo;
  ld_flags : sameFlags st st';
  ld_outside : sameOutside st st';
}.

(** What a pass that runs has done: [st] is the state it starts in, [st']
    the state it ends in, [results] its [results] object. *)
Record PassDone (env : DrainEnv) (st st' : State) (results : SyncResult)
  : Prop := mkPassDone {
  pd_queue : syncQueue (this st') = withFate staysQueued env st;
  pd_heap : ∀ l, heap (world st') !! l
                 = if decide (l ∈ syncQueue (this st))
                   then itemAfter env (maxRetries (this st)) l
                          <$> heap (world st) !! l
                   else heap (world st) !! l;
  pd_requests : requests (world st')
                = requests (world st) ++ withFate isAttempted env st;
  pd_total : total results = length (syncQueue (this st));
  pd_succeeded : succeeded results = length (withFate isDelivered env st);
  pd_failed : failed results = length (withFate isFailed env st);
  pd_errors : errors results
              = omap (errorOf env (maxRetries (this st)) (heap (world st)))
                     (syncQueue (this st));
  pd_maxRetries : maxRetries (this st') = maxRetries (this st);
  pd_isOnline : isOnline (this st') = isOnline (this st);
  pd_listeners : listeners (this st') = listeners (this st);
}.

(** ** Sample states and environments *)

Definition emptyWorld : World :=
  {| heap := ∅; queueSlot := None; statusSlot := None; console := [];
     emitted := []; requests := []; netHandlers := 0 |}.

(** The manager as constructed, before any call. *)
Definition newManager : State := {| this := constructor; world := emptyWorld |}.

(** The same, once NetInfo has reported the loss of the connection. *)
Definition offlineManager : State := set_isOnline (Some false) newManager.

Definition attendanceU1 : Operation :=
  {| op_type := "attendance"; op_data := VObj {[ "userId" := VStr "U1" ]};
     op_url := "/sync"; op_method := None |}.

Definition attendanceU2 : Operation :=
  {| op_type := "attendance"; op_data := VObj {[ "userId" := VStr "U2" ]};
     op_url := "/sync"; op_method := Some "PUT" |}.

Definition http500 : FetchResult :=
  Response false 500 "Internal Server Error" (inl VNull).

Definition http200 : FetchResult := Response true 200 "OK" (inl VNull).

(** A pass in which every request is answered with HTTP 500. *)
Definition serverDown : DrainEnv :=
  {| fetch := λ _ _, http500; queueWrite := Resolves; statusWrite := Resolves;
     clock := "2024-01-01T00:00:00.000Z" |}.

(** A pass in which every request is answered with HTTP 200. *)
Definition serverUp : DrainEnv :=
  {| fetch := λ _ _, http200; queueWrite := Resolves; statusWrite := Resolves;
     clock := "2024-01-01T00:00:00.000Z" |}.

(** A pass in which the request for the first object allocated fails and
    every other request succeeds. *)
Definition firstFails : DrainEnv :=
  {| fetch := λ l _, if decide (l = 1%positive) then http500 else http200;
     queueWrite := Resolves; statusWrite := Resolves;
     clock := "2024-01-01T00:00:00.000Z" |}.

(** A pass during which the write of the last-sync status is rejected. *)
Definition statusWriteFails : DrainEnv :=
  {| fetch := λ _ _, http200; queueWrite := Resolves;
     statusWrite := Rejects "disk full";
     clock := "2024-01-01T00:00:00.000Z" |}.

Definition enqueueAt (x : Z) (write : Outcome) : EnqueueEnv :=
  {| newId := x; nowIso := "2024-01-01T00:00:00.000Z"; saveOutcome := write;
     drain := serverDown |}.

(** One operation queued and stored while offline. *)
Definition oneStored : State :=
  (addToQueue (enqueueAt 1001 Resolves) attendanceU1 offlineManager).1.

(** One operation queued while offline, then the connection is back. *)
Definition oneQueued : State := set_isOnline (Some true) oneStored.

(** Two operations queued while offline, then the connection is back
    (the flag is set directly: no pass has run yet). *)
Definition twoQueued : State :=
  set_isOnline (Some true)
    (addToQueue (enqueueAt 1002 Resolves) attendanceU2
       (addToQueue (enqueueAt 1001 Resolves) attendanceU1 offlineManager).1).1.

(** A manager with one subscriber and one operation queued. *)
Definition watchedQueue : State := subscribe 7%nat oneQueued.

(** What NetInfo reports when the network is reachable, and when it is
    not. *)
Definition connected : NetState :=
  {| isConnected := Some true; isInternetReachable := Some true |}.

Definition disconnected : NetState :=
  {| isConnected := Some false; isInternetReachable := Some false |}.

(** The connection is lost while a pass is under way: the pass has
    started and waits for the answer to its first request when NetInfo's
    callback runs and clears [isOnline]; [syncInProgress] is still set. *)
Definition drainingOffline : State :=
  onNetInfoChange serverDown disconnected (beginPass oneQueued).


(** ** Notions used to state further properties *)

(** The state right after the [push] of [addToQueue]: the new object is
    allocated and appended, nothing else has happened yet. *)
Definition enqueued (env : EnqueueEnv) (op : Operation) (st : State) : State :=
  set_syncQueue (syncQueue (this st) ++ [fresh (dom (heap (world st)))])
    (set_heap (<[fresh (dom (heap (world st))) := newQueueItem env op]>
                 (heap (world st))) st).


(** The call subscribes the listener [l]. *)
Definition subscribesTo (l : Listener) (c : Call) : bool :=
  match c with
  | CSubscribe l' => bool_decide (l' = l)
  | _ => false
  end.

(** The stored queue, when there is one, holds items with distinct ids. *)
Definition storedDistinct (st : State) : Prop :=
  ∀ items, queueSlot (world st) = Some (QItems items) → NoDup (id <$> items).

(** Every [addToQueue] of [calls], run from [st], is given an id that no
    item of the queue carries at that moment. *)
Fixpoint freshIds (calls : list Call) (st : State) : Prop :=
  match calls with
  | [] => True
  | c :: rest =>
      match c with
      | CAddToQueue env op =>
          ∀ l, l ∈ syncQueue (this st) →
               idAt (heap (world st)) l ≠ Some (newId env)
      | _ => True
      end
      ∧ freshIds rest (exec c st)
  end.

(** The conditions of [OfflineIndicator]'s render, on its state
    [isOnline] and [queueStatus]: the banner is not rendered when
    [isOnline && pending === 0 && failed === 0]; the Sync button is
    rendered when [isOnline && pending > 0 && !syncing]. *)
Definition indicatorHidden (isOnline : jsbool) (qs : QueueStatus) : bool :=
  truthy isOnline && bool_decide (qs_pending qs = 0%nat)
  && bool_decide (qs_failed qs = 0%nat).

Definition syncButtonShown (isOnline : jsbool) (qs : QueueStatus) : bool :=
  truthy isOnline && bool_decide (0 < qs_pending qs)%nat && negb (qs_syncing qs).

(** A pass in which every request is answered with HTTP 200 while storage
    rejects the write of the queue. *)
Definition deliversButCannotSave : DrainEnv :=
  {| fetch := λ _ _, http200; queueWrite := Rejects "disk full";
     statusWrite := Resolves; clock := "2024-01-01T00:00:00.000Z" |}.

(** * Properties *)

(** ** Lists *)

Lemma filter_all {A} (P : A → Prop) `{!∀ x, Decision (P x)} (l : list A) :
  (∀ x, x ∈ l → P x) → filter P l = l.
Proof.
  induction l as [|a l IH]; intros HP; [done|].
  rewrite filter_cons_True by (apply HP; left).
  f_equal. apply IH. intros x Hx. apply HP. by right.
Qed.

Lemma filter_ext_elem {A} (P Q : A → Prop)
      `{!∀ x, Decision (P x)} `{!∀ x, Decision (Q x)} (l : list A) :
  (∀ x, x ∈ l → P x ↔ Q x) → filter P l = filter Q l.
Proof.
  induction l as [|a l IH]; intros HPQ; [done|].
  rewrite !filter_cons.
  assert (filter P l = filter Q l) as ->.
  { apply IH. intros x Hx. apply HPQ. by right. }
  destruct (decide (P a)) as [Ha|Ha], (decide (Q a)) as [Hb|Hb]; try done.
  - exfalso. apply Hb, HPQ; [left|done].
  - exfalso. apply Ha, HPQ; [left|done].
Qed.

Lemma omap_ext_elem {A B} (f g : A → option B) (l : list A) :
  (∀ x, x ∈ l → f x = g x) → omap f l = omap g l.
Proof.
  induction l as [|a l IH]; intros Hfg; [done|]. csimpl.
  rewrite (Hfg a) by left.
  rewrite IH; [done|]. intros x Hx. apply Hfg. by right.
Qed.

(** Dropping the id of an object of a queue without shared ids removes
    that object and nothing else. *)
Lemma filter_drop_unique (h : gmap loc QueueItem) (pre todo : list loc) l x :
  NoDup (pre ++ l :: todo) →
  (∀ l1 l2, l1 ∈ pre ++ l :: todo → l2 ∈ pre ++ l :: todo →
            idAt h l1 = idAt h l2 → l1 = l2) →
  idAt h l = Some x →
  filter (λ l', idAt h l' ≠ Some x) (pre ++ l :: todo) = pre ++ todo.
Proof.
  intros Hnd Hids Hx.
  assert (∀ l', l' ∈ pre ++ todo → idAt h l' ≠ Some x) as Hne.
  { intros l' Hl' Heq.
    assert (l' = l) as Hll.
    { apply Hids; [| |congruence].
      - rewrite elem_of_app, elem_of_cons. rewrite elem_of_app in Hl'. tauto.
      - rewrite elem_of_app, elem_of_cons. tauto. }
    apply NoDup_app in Hnd as (_ & Hdisj & Hnd).
    apply NoDup_cons in Hnd as [Hnin _].
    rewrite Hll in Hl'.
    apply elem_of_app in Hl' as [Hin|Hin]; [|done].
    apply (Hdisj l Hin). left. }
  rewrite filter_app, filter_cons_False by (intros Hn; by apply Hn).
  rewrite !filter_all; [done| |]; intros l' Hl'; apply Hne; set_solver.
Qed.

(** ** One iteration of the drain loop *)

Lemma syncStep_fate env st res l item :
  heap (world st) !! l = Some item →
  syncStep env (st, res) l =
    match fate env (maxRetries (this st)) l item with
    | Skipped => (st, res)
    | Delivered => (dropId (id item) (log_request l st), countSucceeded res)
    | FailedKept m =>
        (set_heap (<[l := markFailed m item]> (heap (world st))) (log_request l st),
         countFailed {| err_id := id item; err_operation := operation item;
                        err_error := m |} res)
    | FailedEvicted m =>
        (dropId (id item)
           (set_heap (<[l := markFailed m item]> (heap (world st)))
                     (log_request l st)),
         countFailed {| err_id := id item; err_operation := operation item;
                        err_error := m |} res)
    end.
Proof.
  intros Hl. unfold syncStep, fate. rewrite Hl.
  destruct (eligible _ item); [|done].
  destruct (syncItem _) as [body|m]; simpl; [done|].
  by destruct (bool_decide _).
Qed.

Lemma syncStep_unallocated env st res l :
  heap (world st) !! l = None → syncStep env (st, res) l = (st, res).
Proof. intros Hl. unfold syncStep. by rewrite Hl. Qed.

Lemma sameFlags_refl st : sameFlags st st.
Proof. by repeat split. Qed.

Lemma sameOutside_refl st : sameOutside st st.
Proof. by repeat split. Qed.

Lemma sameFlags_trans st1 st2 st3 :
  sameFlags st1 st2 → sameFlags st2 st3 → sameFlags st1 st3.
Proof.
  intros (?&?&?&?&?) (?&?&?&?&?). repeat split; congruence.
Qed.

Lemma sameOutside_trans st1 st2 st3 :
  sameOutside st1 st2 → sameOutside st2 st3 → sameOutside st1 st3.
Proof.
  intros (?&?&?&?&?) (?&?&?&?&?). repeat split; congruence.
Qed.

Lemma LoopDone_nil env maxR h0 pre st res :
  syncQueue (this st) = pre →
  LoopDone env maxR h0 pre [] st res st res.
Proof.
  intros Hq. constructor; rewrite ?filter_nil, ?app_nil_r; simpl;
    auto using sameFlags_refl, sameOutside_refl.
Qed.

Lemma LoopDone_cons env maxR h0 pre pre1 l todo st res st1 res1 st' res' :
  l ∉ todo →
  pre1 = (if staysQueued (fateAt env maxR h0 l) then pre ++ [l] else pre) →
  (∀ l', heap (world st1) !! l'
         = if decide (l' = l) then itemAfter env maxR l <$> h0 !! l
           else heap (world st) !! l') →
  requests (world st1)
  = requests (world st) ++ (if isAttempted (fateAt env maxR h0 l) then [l] else []) →
  total res1 = total res →
  succeeded res1
  = (succeeded res + (if isDelivered (fateAt env maxR h0 l) then 1 else 0))%nat →
  failed res1
  = (failed res + length (option_list (failure (fateAt env maxR h0 l))))%nat →
  errors res1 = errors res ++ option_list (errorOf env maxR h0 l) →
  sameFlags st st1 → sameOutside st st1 →
  LoopDone env maxR h0 pre1 todo st1 res1 st' res' →
  LoopDone env maxR h0 pre (l :: todo) st res st' res'.
Proof.
  intros Hnin -> Hheap Hreq Htot Hsucc Hfail Herr Hfl Hout [].
  constructor.
  - rewrite ld_queue0, filter_cons.
    case_decide as Hd.
    + rewrite Hd. by rewrite <- app_assoc.
    + apply not_true_is_false in Hd. by rewrite Hd.
  - intros l'. rewrite ld_heap0, Hheap.
    destruct (decide (l' ∈ todo)) as [Hin|Hin].
    + by rewrite decide_True by (by right).
    + destruct (decide (l' = l)) as [->|Hne].
      * by rewrite decide_True by left.
      * rewrite decide_False; [done|]. rewrite elem_of_cons. tauto.
  - rewrite ld_requests0, Hreq, filter_cons, <- app_assoc. f_equal.
    case_decide as Hd.
    + by rewrite Hd.
    + apply not_true_is_false in Hd. by rewrite Hd.
  - congruence.
  - rewrite ld_succeeded0, Hsucc, filter_cons.
    case_decide as Hd.
    + rewrite Hd. simpl. lia.
    + apply not_true_is_false in Hd. rewrite Hd. lia.
  - rewrite ld_failed0, Hfail, filter_cons.
    case_decide as Hd.
    + destruct Hd as [m Hm]. rewrite Hm. simpl. lia.
    + destruct (failure _) as [m|]; [by destruct Hd|]. simpl. lia.
  - rewrite ld_errors0, Herr, <- app_assoc. f_equal. simpl.
    by destruct (errorOf _ _ _ _).
  - eauto using sameFlags_trans.
  - eauto using sameOutside_trans.
Qed.

Lemma idAt_insert_markFailed h l m item l' :
  h !! l = Some item →
  idAt (<[l := markFailed m item]> h) l' = idAt h l'.
Proof.
  intros Hl. unfold idAt. destruct (decide (l = l')) as [<-|Hne].
  - by rewrite lookup_insert_eq, Hl.
  - by rewrite lookup_insert_ne.
Qed.

Lemma dropId_queue x st :
  syncQueue (this (dropId x st))
  = filter (λ l, idAt (heap (world st)) l ≠ Some x) (syncQueue (this st)).
Proof. done. Qed.

(** ** The drain loop *)

Lemma syncLoop_spec env maxR h0 todo :
  ∀ pre st res,
    syncQueue (this st) = pre ++ todo →
    maxRetries (this st) = maxR →
    NoDup (pre ++ todo) →
    (∀ l, l ∈ todo → heap (world st) !! l = h0 !! l) →
    (∀ l1 l2, l1 ∈ pre ++ todo → l2 ∈ pre ++ todo →
       idAt (heap (world st)) l1 = idAt (heap (world st)) l2 → l1 = l2) →
    ∃ st' res', foldl (syncStep env) (st, res) todo = (st', res')
                ∧ LoopDone env maxR h0 pre todo st res st' res'.
Proof.
  induction todo as [|l todo IH]; intros pre st res Hq HmaxR Hnd Hh Hids.
  { exists st, res. split; [done|]. apply LoopDone_nil. by rewrite app_nil_r in Hq. }
  assert (l ∉ todo) as Hnin.
  { apply NoDup_app in Hnd as (_&_&Hnd). by apply NoDup_cons in Hnd as [? _]. }
  assert (NoDup (pre ++ todo)) as Hnd'.
  { apply NoDup_app in Hnd as (Hp&Hd&Ht). apply NoDup_cons in Ht as [_ Ht].
    apply NoDup_app. split_and!; [done| |done].
    intros x Hx Hx'. apply (Hd x Hx). by right. }
  assert (Hl := Hh l ltac:(left)).
  cbn [foldl].
  destruct (h0 !! l) as [item|] eqn:Hitem.
  2:{ rewrite (syncStep_unallocated _ _ _ _ Hl).
      destruct (IH (pre ++ [l]) st res) as (st' & res' & Hfold & Hdone);
        rewrite <- ?app_assoc; try done.
      { intros l' Hl'. apply Hh. by right. }
      exists st', res'. split; [done|].
      eapply LoopDone_cons; [done| | | | | | | | | | exact Hdone];
        unfold errorOf, fateAt; rewrite ?Hitem; simpl;
        rewrite ?app_nil_r, ?Nat.add_0_r;
        auto using sameFlags_refl, sameOutside_refl.
      intros l'. case_decide; [by subst|done]. }
  rewrite (syncStep_fate _ _ _ _ item Hl), HmaxR.
  assert (fateAt env maxR h0 l = fate env maxR l item) as Hfate.
  { unfold fateAt. by rewrite Hitem. }
  assert (idAt (heap (world st)) l = Some (id item)) as Hid.
  { unfold idAt. by rewrite Hl. }
  destruct (fate env maxR l item) as [| |m|m] eqn:Hf.
  - (* not eligible: the object stays where it is *)
    destruct (IH (pre ++ [l]) st res) as (st' & res' & Hfold & Hdone);
      rewrite <- ?app_assoc; try done.
    { intros l' Hl'. apply Hh. by right. }
    exists st', res'. split; [done|].
    eapply LoopDone_cons; [done| | | | | | | | | | exact Hdone];
      unfold errorOf, itemAfter; rewrite ?Hfate, ?Hitem, ?Hf; simpl;
      rewrite ?Hf; simpl; rewrite ?app_nil_r, ?Nat.add_0_r;
      try done; try lia; try (by repeat split).
    intros l'. case_decide; [by subst|done].
  - (* delivered: removed from the live queue *)
    destruct (IH pre (dropId (id item) (log_request l st)) (countSucceeded res))
      as (st' & res' & Hfold & Hdone); try done.
    { rewrite dropId_queue. simpl. rewrite Hq.
      by apply filter_drop_unique. }
    { intros l' Hl'. simpl. apply Hh. by right. }
    { intros l1 l2 H1 H2. simpl. apply Hids.
      - rewrite elem_of_app, elem_of_cons. rewrite elem_of_app in H1. tauto.
      - rewrite elem_of_app, elem_of_cons. rewrite elem_of_app in H2. tauto. }
    exists st', res'. split; [done|].
    eapply LoopDone_cons; [done| | | | | | | | | | exact Hdone];
      unfold errorOf, itemAfter; rewrite ?Hfate, ?Hitem, ?Hf; simpl;
      rewrite ?Hf; simpl; rewrite ?app_nil_r, ?Nat.add_0_r;
      try done; try lia; try (by repeat split).
    intros l'. case_decide; [by subst|done].
  - (* failed below the maximum: mutated in place *)
    destruct (IH (pre ++ [l])
                 (set_heap (<[l := markFailed m item]> (heap (world st)))
                           (log_request l st))
                 (countFailed {| err_id := id item; err_operation := operation item;
                                 err_error := m |} res))
      as (st' & res' & Hfold & Hdone); rewrite <- ?app_assoc; try done.
    { intros l' Hl'. simpl. rewrite lookup_insert_ne by (by intros ->).
      apply Hh. by right. }
    { intros l1 l2 H1 H2. simpl. rewrite !idAt_insert_markFailed by done.
      by apply Hids. }
    exists st', res'. split; [done|].
    eapply LoopDone_cons; [done| | | | | | | | | | exact Hdone];
      unfold errorOf, itemAfter; rewrite ?Hfate, ?Hitem, ?Hf; simpl;
      rewrite ?Hf; simpl; rewrite ?app_nil_r, ?Nat.add_0_r;
      try done; try lia; try (by repeat split).
    intros l'. case_decide as Hd.
    + subst. by rewrite lookup_insert_eq.
    + by rewrite lookup_insert_ne.
  - (* failed at the maximum: mutated, then removed *)
    destruct (IH pre
                 (dropId (id item)
                    (set_heap (<[l := markFailed m item]> (heap (world st)))
                              (log_request l st)))
                 (countFailed {| err_id := id item; err_operation := operation item;
                                 err_error := m |} res))
      as (st' & res' & Hfold & Hdone); try done.
    { rewrite dropId_queue. simpl. rewrite Hq.
      apply filter_drop_unique; [done| |].
      - intros l1 l2 H1 H2. rewrite !idAt_insert_markFailed by done.
        by apply Hids.
      - by rewrite idAt_insert_markFailed. }
    { intros l' Hl'. simpl. rewrite lookup_insert_ne by (by intros ->).
      apply Hh. by right. }
    { intros l1 l2 H1 H2. simpl. rewrite !idAt_insert_markFailed by done.
      apply Hids.
      - rewrite elem_of_app, elem_of_cons. rewrite elem_of_app in H1. tauto.
      - rewrite elem_of_app, elem_of_cons. rewrite elem_of_app in H2. tauto. }
    exists st', res'. split; [done|].
    eapply LoopDone_cons; [done| | | | | | | | | | exact Hdone];
      unfold errorOf, itemAfter; rewrite ?Hfate, ?Hitem, ?Hf; simpl;
      rewrite ?Hf; simpl; rewrite ?app_nil_r, ?Nat.add_0_r;
      try done; try lia; try (by repeat split).
    intros l'. case_decide as Hd.
    + subst. by rewrite lookup_insert_eq.
    + by rewrite lookup_insert_ne.
Qed.

(** ** A pass that runs *)

Lemma syncAll_runs env st :
  canDrain st = true →
  syncAll env st = endPass env (drainLoop env (beginPass st)).
Proof.
  unfold canDrain, syncAll, endPass, beginPass. intros Hc.
  apply andb_true_iff in Hc as [Hon Hip].
  rewrite Hon. apply negb_true_iff in Hip. rewrite Hip. simpl.
  destruct (drainLoop env _) as [st1 res]. simpl.
  by destruct (statusWrite env).
Qed.

Lemma syncAll_rejected env st :
  canDrain st = false →
  syncAll env st
  = (st, Ok (Rejected (if syncInProgress (this st)
                       then "sync_in_progress" else "offline"))).
Proof.
  unfold canDrain, syncAll. intros Hc.
  apply andb_false_iff in Hc as [Hon|Hip].
  - by rewrite Hon.
  - apply negb_false_iff in Hip. rewrite Hip. by rewrite orb_true_r.
Qed.

Lemma drainLoop_spec env st :
  wf st →
  ∃ st' res,
    drainLoop env (beginPass st) = (st', res)
    ∧ LoopDone env (maxRetries (this st)) (heap (world st)) []
               (syncQueue (this st)) (beginPass st)
               {| total := length (syncQueue (this st)); succeeded := 0;
                  failed := 0; errors := [] |}
               st' res.
Proof.
  intros [Hnd Halloc Hids]. unfold drainLoop.
  apply (syncLoop_spec env (maxRetries (this st)) (heap (world st))
                       (syncQueue (this st)) [] (beginPass st)); try done.
Qed.

(** The stages after the loop leave queue, heap and request log alone. *)
Lemma endPass_queue env acc :
  syncQueue (this (endPass env acc).1) = syncQueue (this acc.1)
  ∧ heap (world (endPass env acc).1) = heap (world acc.1)
  ∧ requests (world (endPass env acc).1) = requests (world acc.1)
  ∧ maxRetries (this (endPass env acc).1) = maxRetries (this acc.1)
  ∧ isOnline (this (endPass env acc).1) = isOnline (this acc.1)
  ∧ listeners (this (endPass env acc).1) = listeners (this acc.1).
Proof.
  unfold endPass, saveQueue.
  destruct (queueWrite env), (statusWrite env); simpl; by repeat split.
Qed.

Lemma endPass_result env acc :
  (endPass env acc).2
  = match statusWrite env with
    | Resolves => Ok (Completed acc.2)
    | Rejects m => Throw m
    end.
Proof. unfold endPass. by destruct (statusWrite env). Qed.

Lemma failure_isFailed f : is_Some (failure f) ↔ isFailed f = true.
Proof.
  destruct f; simpl; split; try done; try (by intros [? ?]); by eauto.
Qed.

Lemma pass_spec env st :
  canDrain st = true → wf st →
  ∃ results,
    (syncAll env st).2
    = match statusWrite env with
      | Resolves => Ok (Completed results)
      | Rejects m => Throw m
      end
    ∧ PassDone env st (syncAll env st).1 results.
Proof.
  intros Hc Hwf. rewrite (syncAll_runs _ _ Hc).
  destruct (drainLoop_spec env st Hwf) as (st1 & res & -> & []).
  exists res. split; [apply endPass_result|].
  destruct (endPass_queue env (st1, res)) as (Hq & Hh & Hr & Hm & Ho & Hls).
  destruct ld_flags0 as (Hon & _ & Hl & _ & Hmax).
  simpl in *. constructor.
  - by rewrite Hq, ld_queue0.
  - intros l. by rewrite Hh, ld_heap0.
  - by rewrite Hr, ld_requests0.
  - by rewrite ld_total0.
  - by rewrite ld_succeeded0.
  - rewrite ld_failed0. simpl. unfold withFate. f_equal.
    apply filter_ext_elem. intros l _. apply failure_isFailed.
  - by rewrite ld_errors0.
  - by rewrite Hm, Hmax.
  - by rewrite Ho, Hon.
  - by rewrite Hls, Hl.
Qed.

Lemma omap_filter_Forall2 {A B} (f : A → option B) (q : list A) :
  Forall2 (λ a b, f a = Some b) (filter (λ a, is_Some (f a)) q) (omap f q).
Proof.
  induction q as [|a q IH]; [constructor|].
  rewrite filter_cons. simpl.
  destruct (f a) as [b|] eqn:Hfa.
  - rewrite decide_True by eauto. by constructor.
  - rewrite decide_False by (by intros [? ?]). done.
Qed.

Lemma attempted_split {A} (g : A → Fate) (q : list A) :
  (length (filter (λ a, isDelivered (g a) = true) q)
   + length (filter (λ a, isFailed (g a) = true) q))%nat
  = length (filter (λ a, isAttempted (g a) = true) q).
Proof.
  induction q as [|a q IH]; [done|].
  rewrite !filter_cons.
  destruct (g a); simpl; repeat case_decide; simpl; try done; lia.
Qed.

Lemma fate_eligible env maxR l item :
  eligible maxR item = true ↔ isAttempted (fate env maxR l item) = true.
Proof.
  unfold fate. destruct (eligible maxR item); [|done].
  destruct (syncItem _); [done|]. by destruct (bool_decide _).
Qed.

Lemma errorOf_isFailed env maxR h l :
  is_Some (errorOf env maxR h l) ↔ isFailed (fateAt env maxR h l) = true.
Proof.
  unfold errorOf, fateAt. destruct (h !! l) as [item|]; simpl.
  - rewrite <- failure_isFailed. by rewrite fmap_is_Some.
  - split; [by intros [? ?]|done].
Qed.

(** ** The result of a drain pass *)

(** C2. A drain pass that runs (online, no pass under way) on a queue
    whose objects are distinct and carry distinct ids: [results.total] is
    the length of the queue at the start; every eligible item is requested
    exactly once and counted exactly once, in [succeeded] or in [failed];
    [results.errors] holds, in order, one [{id, operation, error}] entry
    per failed attempt; a delivered item is not in the queue afterwards;
    a failed item holds its retry counter incremented, status ['failed']
    and [lastError]; the queue afterwards consists of the items that were
    not eligible and of the failed items still below [maxRetries], so of
    exactly the latter when every item was eligible.  [results] is what
    [syncAll] returns when the write of the sync status succeeds. *)
Theorem drain_pass_accounts_for_every_item env st :
  canDrain st = true → wf st →
  ∃ results,
    (syncAll env st).2
    = match statusWrite env with
      | Resolves => Ok (Completed results)
      | Rejects m => Throw m
      end
    ∧ total results = length (syncQueue (this st))
    ∧ requests (world (syncAll env st).1)
      = requests (world st) ++ withFate isAttempted env st
    ∧ NoDup (withFate isAttempted env st)
    ∧ (succeeded results + failed results)%nat
      = length (withFate isAttempted env st)
    ∧ succeeded results = length (withFate isDelivered env st)
    ∧ failed results = length (withFate isFailed env st)
    ∧ Forall2 (λ l e, ∃ item m,
                 heap (world st) !! l = Some item
                 ∧ failure (fate env (maxRetries (this st)) l item) = Some m
                 ∧ e = {| err_id := id item; err_operation := operation item;
                          err_error := m |})
              (withFate isFailed env st) (errors results)
    ∧ (∀ l, l ∈ withFate isDelivered env st
            → l ∉ syncQueue (this (syncAll env st).1))
    ∧ (∀ l item m, l ∈ syncQueue (this st) → heap (world st) !! l = Some item →
         failure (fate env (maxRetries (this st)) l item) = Some m →
         ∃ item', heap (world (syncAll env st).1) !! l = Some item'
                  ∧ item' = markFailed m item
                  ∧ retries item' = retries item + 1
                  ∧ status item' = "failed"
                  ∧ lastError item' = Some m)
    ∧ syncQueue (this (syncAll env st).1) = withFate staysQueued env st
    ∧ ((∀ l item, l ∈ syncQueue (this st) → heap (world st) !! l = Some item →
          eligible (maxRetries (this st)) item = true) →
       syncQueue (this (syncAll env st).1) = withFate isFailedKept env st).
Proof.
  intros Hc Hwf.
  destruct (pass_spec env st Hc Hwf) as (results & Hret & []).
  exists results. split_and!; try done.
  - apply NoDup_filter, Hwf.
  - rewrite pd_succeeded0, pd_failed0. apply attempted_split.
  - rewrite pd_errors0.
    assert (withFate isFailed env st
            = filter (λ l, is_Some (errorOf env (maxRetries (this st))
                                            (heap (world st)) l))
                     (syncQueue (this st))) as ->.
    { apply filter_ext_elem. intros l _. symmetry. apply errorOf_isFailed. }
    eapply Forall2_impl; [apply omap_filter_Forall2|].
    intros l e. unfold errorOf. simpl.
    destruct (heap (world st) !! l) as [item|]; [|done].
    destruct (failure _) as [m|] eqn:Hm; [|done].
    intros [= <-]. by exists item, m.
  - intros l Hl. rewrite pd_queue0. unfold withFate in *.
    rewrite list_elem_of_filter in Hl. rewrite list_elem_of_filter.
    intros [Hs _]. destruct Hl as [Hd _]. by destruct (fateAt _ _ _ _).
  - intros l item m Hl Hitem Hm. exists (markFailed m item).
    rewrite pd_heap0, decide_True, Hitem by done. simpl.
    unfold itemAfter. by rewrite Hm.
  - intros Hel. rewrite pd_queue0. apply filter_ext_elem. intros l Hl.
    destruct (wf_alloc _ Hwf l Hl) as [item Hitem].
    specialize (Hel l item Hl Hitem).
    apply (fate_eligible env _ l) in Hel.
    unfold fateAt. rewrite Hitem. by destruct (fate _ _ _ _).
Qed.

(** ** Saving and enqueueing *)

Lemma saveQueue_this write st : this (saveQueue write st) = this st.
Proof. by destruct write. Qed.

Lemma saveQueue_heap write st :
  heap (world (saveQueue write st)) = heap (world st).
Proof. by destruct write. Qed.

Lemma saveQueue_queueItems write st :
  queueItems (saveQueue write st) = queueItems st.
Proof. unfold queueItems. by rewrite saveQueue_this, saveQueue_heap. Qed.

Lemma saveQueue_wf write st : wf st → wf (saveQueue write st).
Proof.
  intros [Hnd Ha Hi].
  constructor; rewrite ?saveQueue_this, ?saveQueue_heap; done.
Qed.

Lemma fresh_heap_None (h : gmap loc QueueItem) : h !! fresh (dom h) = None.
Proof. apply not_elem_of_dom, is_fresh. Qed.

Lemma addToQueue_offline env op st :
  truthy (isOnline (this st)) = false →
  addToQueue env op st
  = (saveQueue (saveOutcome env)
       (set_syncQueue (syncQueue (this st) ++ [fresh (dom (heap (world st)))])
          (set_heap (<[fresh (dom (heap (world st))) := newQueueItem env op]>
                       (heap (world st))) st)),
     newId env).
Proof.
  intros Hoff. unfold addToQueue. cbv zeta.
  rewrite saveQueue_this. simpl. by rewrite Hoff.
Qed.

Lemma queueItems_alloc st l item :
  allocated st → heap (world st) !! l = None →
  queueItems (set_syncQueue (syncQueue (this st) ++ [l])
                (set_heap (<[l := item]> (heap (world st))) st))
  = queueItems st ++ [item].
Proof.
  intros Hwf Hl. unfold queueItems. simpl.
  rewrite omap_app. simpl. rewrite lookup_insert_eq. f_equal.
  apply omap_ext_elem. intros l' Hl'.
  rewrite lookup_insert_ne; [done|]. intros ->.
  destruct (Hwf _ Hl') as [? ?]. congruence.
Qed.

(** Enqueueing while offline keeps the queue well formed, provided the
    new id is not the id of a queued item. *)
Lemma addToQueue_offline_wf env op st :
  truthy (isOnline (this st)) = false → wf st →
  (∀ l, l ∈ syncQueue (this st) → idAt (heap (world st)) l ≠ Some (newId env)) →
  wf (addToQueue env op st).1.
Proof.
  intros Hoff Hwf Hnew. rewrite addToQueue_offline by done. simpl.
  apply saveQueue_wf.
  pose proof (fresh_heap_None (heap (world st))) as Hfresh.
  set (l := fresh (dom (heap (world st)))) in *.
  assert (l ∉ syncQueue (this st)) as Hnin.
  { intros Hin. destruct (wf_alloc _ Hwf _ Hin) as [? ?]. congruence. }
  assert (∀ l', l' ∈ syncQueue (this st) →
                idAt (<[l := newQueueItem env op]> (heap (world st))) l'
                = idAt (heap (world st)) l') as Hsame.
  { intros l' Hl'. unfold idAt. rewrite lookup_insert_ne; [done|].
    by intros ->. }
  assert (idAt (<[l := newQueueItem env op]> (heap (world st))) l
          = Some (newId env)) as Hidl.
  { unfold idAt. by rewrite lookup_insert_eq. }
  constructor; simpl.
  - apply NoDup_app. split_and!; [apply Hwf| |apply NoDup_singleton].
    intros l' Hl' ->%list_elem_of_singleton. done.
  - intros l' [Hl'| ->%list_elem_of_singleton]%elem_of_app.
    + rewrite lookup_insert_ne by (by intros ->). by apply Hwf.
    + rewrite lookup_insert_eq. eauto.
  - intros l1 l2 [H1| ->%list_elem_of_singleton]%elem_of_app
                 [H2| ->%list_elem_of_singleton]%elem_of_app; try done.
    + rewrite !Hsame by done. by apply Hwf.
    + rewrite (Hsame l1), Hidl by done. intros Heq. by destruct (Hnew l1 H1).
    + rewrite (Hsame l2), Hidl by done. intros Heq. by destruct (Hnew l2 H2).
Qed.

(** ** The sample states are well formed *)

Lemma set_isOnline_wf b st : wf st → wf (set_isOnline b st).
Proof. intros [Hnd Ha Hi]. by constructor. Qed.

Lemma wf_empty_queue st : syncQueue (this st) = [] → wf st.
Proof.
  intros Hq. constructor; rewrite Hq.
  - constructor.
  - intros l Hl. by apply elem_of_nil in Hl.
  - intros l1 l2 Hl. by apply elem_of_nil in Hl.
Qed.

Lemma wf_oneQueued : wf oneQueued.
Proof.
  apply set_isOnline_wf, addToQueue_offline_wf; [done| |].
  - by apply wf_empty_queue.
  - intros l Hl. by apply elem_of_nil in Hl.
Qed.

Lemma wf_twoQueued : wf twoQueued.
Proof.
  apply set_isOnline_wf, addToQueue_offline_wf; [done| |].
  - apply addToQueue_offline_wf; [done| |].
    + by apply wf_empty_queue.
    + intros l Hl. by apply elem_of_nil in Hl.
  - intros l Hl.
    assert (l ∈ [1%positive]) as Hl1 by exact Hl.
    apply list_elem_of_singleton in Hl1. rewrite Hl1. by vm_compute.
Qed.

(** ** A pass over two items, one of which is not delivered *)

(** The first of two queued items is answered with HTTP 500, the second
    is delivered. *)
Lemma drain_pass_accounts_for_every_item_witness :
  canDrain twoQueued = true ∧ wf twoQueued
  ∧ ∃ results,
      (syncAll firstFails twoQueued).2 = Ok (Completed results)
      ∧ total results = 2%nat
      ∧ succeeded results = 1%nat
      ∧ failed results = 1%nat
      ∧ syncQueue (this (syncAll firstFails twoQueued).1) = [1%positive].
Proof.
  split; [reflexivity|]. split; [exact wf_twoQueued|].
  destruct (drain_pass_accounts_for_every_item firstFails twoQueued
              eq_refl wf_twoQueued)
    as (results & Hret & Htot & _ & _ & _ & Hs & Hf & _ & _ & _ & Hq & _).
  exists results. split; [exact Hret|].
  split; [exact Htot|].
  split; [exact Hs|].
  split; [exact Hf|exact Hq].
Defined.

(** ** Passes keep the queue well formed *)

Lemma itemAfter_id env maxR l item : id (itemAfter env maxR l item) = id item.
Proof. unfold itemAfter. by destruct (failure _). Qed.

Lemma PassDone_idAt env st st' results l :
  PassDone env st st' results →
  idAt (heap (world st')) l = idAt (heap (world st)) l.
Proof.
  intros []. unfold idAt. rewrite pd_heap0.
  case_decide; [|done].
  destruct (heap (world st) !! l) as [item|]; [|done].
  simpl. by rewrite itemAfter_id.
Qed.

Lemma PassDone_wf env st st' results :
  wf st → PassDone env st st' results → wf st'.
Proof.
  intros Hwf Hpd. pose proof Hpd as [].
  assert (∀ l, l ∈ syncQueue (this st') → l ∈ syncQueue (this st)) as Hsub.
  { intros l. rewrite pd_queue0. unfold withFate.
    rewrite list_elem_of_filter. tauto. }
  constructor.
  - rewrite pd_queue0. apply NoDup_filter, Hwf.
  - intros l Hl. rewrite pd_heap0, decide_True by auto.
    apply fmap_is_Some, Hwf. auto.
  - intros l1 l2 H1 H2.
    rewrite !(PassDone_idAt env st st' results) by done.
    apply Hwf; auto.
Qed.

Lemma syncAll_wf env st : wf st → wf (syncAll env st).1.
Proof.
  intros Hwf. destruct (canDrain st) eqn:Hc.
  - destruct (pass_spec env st Hc Hwf) as (results & _ & Hpd).
    by eapply PassDone_wf.
  - by rewrite syncAll_rejected.
Qed.

Lemma syncAll_maxRetries env st :
  wf st → maxRetries (this (syncAll env st).1) = maxRetries (this st).
Proof.
  intros Hwf. destruct (canDrain st) eqn:Hc.
  - destruct (pass_spec env st Hc Hwf) as (results & _ & []). done.
  - by rewrite syncAll_rejected.
Qed.

(** ** An item whose delivery fails *)

Lemma fate_failing env maxR l item :
  eligible maxR item = true → failsFor env l →
  ∃ m, fate env maxR l item
       = if bool_decide (maxR ≤ retries item + 1)
         then FailedEvicted m else FailedKept m.
Proof.
  intros He Hf. destruct (Hf item) as [m Hm]. exists m.
  unfold fate. by rewrite He, Hm.
Qed.

Lemma failing_pass env st l item :
  canDrain st = true → wf st →
  l ∈ syncQueue (this st) → heap (world st) !! l = Some item →
  eligible (maxRetries (this st)) item = true → failsFor env l →
  ∃ m, heap (world (syncAll env st).1) !! l = Some (markFailed m item)
       ∧ (l ∈ syncQueue (this (syncAll env st).1)
          ↔ retries item + 1 < maxRetries (this st))
       ∧ l ∈ withFate isAttempted env st.
Proof.
  intros Hc Hwf Hl Hitem He Hf.
  destruct (pass_spec env st Hc Hwf) as (results & _ & []).
  destruct (fate_failing env _ l item He Hf) as [m Hm].
  exists m. split_and!.
  - rewrite pd_heap0, decide_True, Hitem by done. simpl.
    unfold itemAfter. rewrite Hm. by case_bool_decide.
  - rewrite pd_queue0. unfold withFate. rewrite list_elem_of_filter.
    unfold fateAt. rewrite Hitem, Hm.
    case_bool_decide; simpl; split; try done; try lia; by intros [? ?].
  - unfold withFate. rewrite list_elem_of_filter. split; [|done].
    unfold fateAt. rewrite Hitem, Hm. by case_bool_decide.
Qed.

Lemma runPasses_app envs1 envs2 st :
  runPasses (envs1 ++ envs2) st = runPasses envs2 (runPasses envs1 st).
Proof. apply foldl_app. Qed.

Lemma failedPasses_app l envs1 envs2 st :
  failedPasses l (envs1 ++ envs2) st
  ↔ failedPasses l envs1 st ∧ failedPasses l envs2 (runPasses envs1 st).
Proof.
  revert st. induction envs1 as [|env envs1 IH]; intros st; simpl.
  - tauto.
  - rewrite IH. tauto.
Qed.

Lemma runPasses_wf envs st : wf st → wf (runPasses envs st).
Proof.
  revert st. induction envs as [|env envs IH]; intros st Hwf; [done|].
  simpl. apply IH. by apply syncAll_wf.
Qed.

Lemma runPasses_maxRetries envs st :
  wf st → maxRetries (this (runPasses envs st)) = maxRetries (this st).
Proof.
  revert st. induction envs as [|env envs IH]; intros st Hwf; [done|].
  simpl. rewrite IH by (by apply syncAll_wf). by apply syncAll_maxRetries.
Qed.

(** While the counter stays below the maximum, the item stays queued and
    counts its failed passes. *)
Lemma failing_passes_below l envs :
  ∀ st item,
    wf st → l ∈ syncQueue (this st) → heap (world st) !! l = Some item →
    status item = "pending" ∨ status item = "failed" →
    failedPasses l envs st →
    retries item + Z.of_nat (length envs) < maxRetries (this st) →
    l ∈ syncQueue (this (runPasses envs st))
    ∧ ∃ item', heap (world (runPasses envs st)) !! l = Some item'
               ∧ retries item' = retries item + Z.of_nat (length envs)
               ∧ status item' = (if envs is [] then status item else "failed")
               ∧ id item' = id item.
Proof.
  induction envs as [|env envs IH]; intros st item Hwf Hl Hitem Hst Hfp Hlt.
  { split; [done|]. exists item. simpl. split_and!; try done. lia. }
  destruct Hfp as (Hc & Hf & Hfp). simpl in Hlt.
  assert (eligible (maxRetries (this st)) item = true) as He.
  { unfold eligible. destruct Hst as [->| ->]; simpl; [done|].
    apply bool_decide_eq_true. lia. }
  destruct (failing_pass env st l item Hc Hwf Hl Hitem He Hf)
    as (m & Hh1 & Hq1 & _).
  destruct (IH (syncAll env st).1 (markFailed m item)) as (Hq & item' & Hh & Hr & Hs & Hi).
  - by apply syncAll_wf.
  - apply Hq1. lia.
  - done.
  - by right.
  - done.
  - rewrite syncAll_maxRetries by done. simpl. lia.
  - split; [done|]. exists item'. split_and!; [done| | |done].
    + rewrite Hr. simpl. lia.
    + rewrite Hs. simpl. by destruct envs.
Qed.

(** Once the counter reaches the maximum, the item leaves the queue. *)
Lemma failing_passes_evicted l envs :
  ∀ st item,
    wf st → l ∈ syncQueue (this st) → heap (world st) !! l = Some item →
    status item = "pending" ∨ status item = "failed" →
    failedPasses l envs st → envs ≠ [] →
    retries item + Z.of_nat (length envs) = maxRetries (this st) →
    (l ∉ syncQueue (this (runPasses envs st)))
    ∧ (∃ item', heap (world (runPasses envs st)) !! l = Some item'
                ∧ retries item' = maxRetries (this st)).
Proof.
  induction envs as [|env envs IH]; intros st item Hwf Hl Hitem Hst Hfp Hne Heq;
    [done|].
  destruct Hfp as (Hc & Hf & Hfp). simpl in Heq.
  assert (eligible (maxRetries (this st)) item = true) as He.
  { unfold eligible. destruct Hst as [->| ->]; simpl; [done|].
    apply bool_decide_eq_true. lia. }
  destruct (failing_pass env st l item Hc Hwf Hl Hitem He Hf)
    as (m & Hh1 & Hq1 & _).
  destruct envs as [|env' envs].
  - simpl in *. split.
    + rewrite Hq1. lia.
    + exists (markFailed m item). split; [done|]. simpl. lia.
  - destruct (IH (syncAll env st).1 (markFailed m item))
      as (Hq & item' & Hh & Hr); try done.
    + by apply syncAll_wf.
    + apply Hq1. simpl in Heq. lia.
    + by right.
    + rewrite syncAll_maxRetries by done. simpl in *. lia.
    + split; [done|]. exists item'. split; [done|].
      by rewrite Hr, syncAll_maxRetries.
Qed.

(** An object that is not queued is neither requested nor queued again
    by a pass. *)
Lemma unqueued_pass env st l :
  wf st → l ∉ syncQueue (this st) →
  (l ∉ syncQueue (this (syncAll env st).1))
  ∧ (∃ extra, requests (world (syncAll env st).1) = requests (world st) ++ extra
              ∧ (l ∉ extra)).
Proof.
  intros Hwf Hl. destruct (canDrain st) eqn:Hc.
  - destruct (pass_spec env st Hc Hwf) as (results & _ & []). split.
    + rewrite pd_queue0. unfold withFate. rewrite list_elem_of_filter. tauto.
    + eexists. split; [exact pd_requests0|].
      unfold withFate. rewrite list_elem_of_filter. tauto.
  - rewrite syncAll_rejected by done. simpl. split; [done|].
    exists []. split; [by rewrite app_nil_r|]. apply not_elem_of_nil.
Qed.

Lemma unqueued_passes l envs :
  ∀ st, wf st → l ∉ syncQueue (this st) →
        (l ∉ syncQueue (this (runPasses envs st)))
        ∧ (∃ extra, requests (world (runPasses envs st))
                    = requests (world st) ++ extra
                    ∧ (l ∉ extra)).
Proof.
  induction envs as [|env envs IH]; intros st Hwf Hl.
  { split; [done|]. exists []. split; [by rewrite app_nil_r|].
    apply not_elem_of_nil. }
  destruct (unqueued_pass env st l Hwf Hl) as (Hq1 & extra1 & Hr1 & Hn1).
  destruct (IH (syncAll env st).1 (syncAll_wf env st Hwf) Hq1)
    as (Hq & extra & Hr & Hn).
  simpl. split; [done|]. exists (extra1 ++ extra). split.
  - by rewrite Hr, Hr1, app_assoc.
  - rewrite elem_of_app. tauto.
Qed.

(** ** Invariants of the queue *)

Lemma allocItems_preserves items :
  ∀ h ls h' l x, allocItems items h = (ls, h') → h !! l = Some x →
                 h' !! l = Some x.
Proof.
  induction items as [|item items IH]; intros h ls h' l x Ha Hl.
  { by injection Ha as <- <-. }
  simpl in Ha.
  destruct (allocItems items _) as [ls1 h1] eqn:Hrec.
  injection Ha as <- <-.
  eapply IH; [exact Hrec|].
  rewrite lookup_insert_ne; [done|]. intros <-.
  by rewrite fresh_heap_None in Hl.
Qed.

Lemma allocItems_items (P : QueueItem → Prop) items :
  ∀ h ls h', allocItems items h = (ls, h') → Forall P items →
             liveInv P h' ls.
Proof.
  induction items as [|item0 items IH]; intros h ls h' Ha HP l item Hl Hitem.
  { injection Ha as <- <-. by apply elem_of_nil in Hl. }
  simpl in Ha.
  destruct (allocItems items _) as [ls1 h1] eqn:Hrec.
  injection Ha as <- <-.
  apply Forall_cons in HP as [HP0 HP].
  apply elem_of_cons in Hl as [->|Hl].
  - erewrite (allocItems_preserves _ _ _ _ _ item0 Hrec) in Hitem
      by apply lookup_insert_eq.
    by injection Hitem as <-.
  - by eapply IH.
Qed.

Lemma liveInv_queueItems (P : QueueItem → Prop) st :
  liveInv P (heap (world st)) (syncQueue (this st)) ↔ Forall P (queueItems st).
Proof.
  unfold liveInv, queueItems. rewrite Forall_forall. split.
  - intros Hall item (l & Hl & Hitem)%list_elem_of_omap. eauto.
  - intros Hall l item Hl Hitem. apply Hall, list_elem_of_omap. eauto.
Qed.

Lemma liveInv_filter (P : QueueItem → Prop) h q
      (keep : loc → Prop) `{!∀ l, Decision (keep l)} :
  liveInv P h q → liveInv P h (filter keep q).
Proof.
  intros Hall l item [_ Hl]%list_elem_of_filter. by apply Hall.
Qed.

Lemma queueInv_frame P st st' :
  maxRetries (this st') = maxRetries (this st) →
  heap (world st') = heap (world st) →
  syncQueue (this st') = syncQueue (this st) →
  queueSlot (world st') = queueSlot (world st) →
  queueInv P st → queueInv P st'.
Proof. unfold queueInv. by intros -> -> -> ->. Qed.

Lemma queueInv_empty P st st' :
  maxRetries (this st') = maxRetries (this st) →
  syncQueue (this st') = [] →
  queueSlot (world st') = queueSlot (world st) →
  queueInv P st → queueInv P st'.
Proof.
  unfold queueInv. intros -> -> -> [_ Hs]. split; [|done].
  intros l item Hl. by apply elem_of_nil in Hl.
Qed.

Lemma saveQueue_inv P write st : queueInv P st → queueInv P (saveQueue write st).
Proof.
  intros [Hlive Hstored]. destruct write; [|done].
  split; [done|]. intros items [= <-]. simpl.
  by apply liveInv_queueItems.
Qed.

Lemma loadQueue_inv P read st : queueInv P st → queueInv P (loadQueue read st).
Proof.
  intros Hb. unfold loadQueue. destruct read as [|m].
  2:{ by apply (queueInv_empty P st). }
  destruct (queueSlot (world st)) as [[items| |]|] eqn:Hslot; try done.
  - destruct (allocItems items _) as [ls h] eqn:Ha.
    destruct Hb as [_ Hs]. split; simpl; [|done].
    apply (allocItems_items _ items _ _ _ Ha). by apply Hs.
  - by apply (queueInv_empty P st).
Qed.

Lemma exec_maxRetries c st : maxRetries (this (exec c st)) = maxRetries (this st).
Proof.
  assert (∀ env st, maxRetries (this (syncAll env st).1) = maxRetries (this st))
    as Hsync.
  { intros env st0. destruct (canDrain st0) eqn:Hc.
    2:{ by rewrite syncAll_rejected. }
    rewrite syncAll_runs by done. unfold drainLoop.
    destruct (endPass_queue env
                (foldl (syncStep env)
                   (beginPass st0,
                    {| total := length (syncQueue (this (beginPass st0)));
                       succeeded := 0; failed := 0; errors := [] |})
                   (syncQueue (this (beginPass st0)))))
      as (_ & _ & _ & -> & _).
    assert (∀ todo st1 res,
              maxRetries (this (foldl (syncStep env) (st1, res) todo).1)
              = maxRetries (this st1)) as Hloop.
    { induction todo as [|l todo IH]; intros st1 res; [done|].
      cbn [foldl]. destruct (syncStep env (st1, res) l) as [st2 res2] eqn:Hs.
      rewrite IH. change st2 with (st2, res2).1. rewrite <- Hs.
      destruct (heap (world st1) !! l) as [item|] eqn:Hl.
      - rewrite (syncStep_fate _ _ _ _ item Hl). by destruct (fate _ _ _ _).
      - by rewrite syncStep_unallocated. }
    by rewrite Hloop. }
  destruct c; simpl.
  - unfold initialize, loadQueue.
    destruct read, probe; simpl; try done;
      destruct (queueSlot (world st)) as [[items| |]|]; try done;
      by destruct (allocItems items _).
  - unfold onNetInfoChange. destruct (_ && _); [|done]. by rewrite Hsync.
  - done.
  - done.
  - unfold addToQueue. cbv zeta. simpl.
    destruct (truthy _); [rewrite Hsync|]; by rewrite saveQueue_this.
  - apply Hsync.
  - unfold forceSync. destruct (negb _); [done|apply Hsync].
  - unfold clearQueue. by rewrite saveQueue_this.
  - unfold removeQueueItem. by rewrite saveQueue_this.
Qed.

Lemma run_maxRetries calls :
  ∀ st, maxRetries (this (run calls st)) = maxRetries (this st).
Proof.
  induction calls as [|c calls IH]; intros st; [done|].
  simpl. by rewrite IH, exec_maxRetries.
Qed.

(** A property of items that holds of a new item and of an item marked
    as failed and kept in the queue is an invariant of the manager. *)
Section QueueInvariant.

Variable P : Z → QueueItem → Prop.

Hypothesis P_new :
  ∀ maxR env op, 0 ≤ maxR → P maxR (newQueueItem env op).

Hypothesis P_kept :
  ∀ maxR m item, eligible maxR item = true → ¬ maxR ≤ retries item + 1 →
                 P maxR (markFailed m item).

Lemma syncStep_inv env st res l :
  liveInv (P (maxRetries (this st))) (heap (world st)) (syncQueue (this st)) →
  liveInv (P (maxRetries (this (syncStep env (st, res) l).1)))
          (heap (world (syncStep env (st, res) l).1))
          (syncQueue (this (syncStep env (st, res) l).1))
  ∧ maxRetries (this (syncStep env (st, res) l).1) = maxRetries (this st)
  ∧ queueSlot (world (syncStep env (st, res) l).1) = queueSlot (world st).
Proof.
  intros Hb. destruct (heap (world st) !! l) as [item|] eqn:Hl.
  2:{ by rewrite syncStep_unallocated. }
  rewrite (syncStep_fate _ _ _ _ item Hl).
  destruct (fate _ _ _ _) as [| |m|m] eqn:Hf; simpl; split_and!; try done.
  - by apply liveInv_filter.
  - (* kept: the mutated item satisfies the property *)
    intros l' item' Hl' Hitem'.
    destruct (decide (l' = l)) as [->|Hne].
    + rewrite lookup_insert_eq in Hitem'. injection Hitem' as <-.
      unfold fate in Hf. destruct (eligible _ _) eqn:He; [|done].
      destruct (syncItem _); [done|]. case_bool_decide; [done|].
      by apply P_kept.
    + rewrite lookup_insert_ne in Hitem' by done. eauto.
  - (* evicted: the mutated object is filtered out *)
    intros l' item' [Hid Hl']%list_elem_of_filter Hitem'. simpl in *.
    destruct (decide (l' = l)) as [->|Hne].
    + rewrite lookup_insert_eq in Hid. by destruct Hid.
    + rewrite lookup_insert_ne in Hitem' by done. eauto.
Qed.

Lemma syncLoop_inv env todo :
  ∀ st res,
    liveInv (P (maxRetries (this st))) (heap (world st)) (syncQueue (this st)) →
    liveInv (P (maxRetries (this (foldl (syncStep env) (st, res) todo).1)))
            (heap (world (foldl (syncStep env) (st, res) todo).1))
            (syncQueue (this (foldl (syncStep env) (st, res) todo).1))
    ∧ maxRetries (this (foldl (syncStep env) (st, res) todo).1)
      = maxRetries (this st)
    ∧ queueSlot (world (foldl (syncStep env) (st, res) todo).1)
      = queueSlot (world st).
Proof.
  induction todo as [|l todo IH]; intros st res Hb; [done|].
  cbn [foldl]. destruct (syncStep_inv env st res l Hb) as (Hb1 & Hm1 & Hs1).
  destruct (syncStep env (st, res) l) as [st1 res1] eqn:Hstep.
  cbn [fst snd] in *.
  destruct (IH st1 res1 Hb1) as (Hb2 & Hm2 & Hs2).
  split_and!; [done|congruence|congruence].
Qed.

Lemma syncAll_inv env st : queueInv P st → queueInv P (syncAll env st).1.
Proof.
  intros [Hlive Hstored]. destruct (canDrain st) eqn:Hc.
  2:{ by rewrite syncAll_rejected. }
  rewrite syncAll_runs by done. unfold drainLoop.
  destruct (syncLoop_inv env (syncQueue (this (beginPass st)))
              (beginPass st)
              {| total := length (syncQueue (this (beginPass st)));
                 succeeded := 0; failed := 0; errors := [] |} Hlive)
    as (Hb & Hm & Hs).
  destruct (foldl _ _ _) as [st1 res1]. simpl in *.
  assert (queueInv P (saveQueue (queueWrite env) st1)) as [Hl2 Hs2].
  { apply saveQueue_inv. split; [done|]. by rewrite Hm, Hs. }
  unfold endPass. simpl. destruct (statusWrite env); by split.
Qed.

Lemma addToQueue_inv env op st :
  0 ≤ maxRetries (this st) → queueInv P st → queueInv P (addToQueue env op st).1.
Proof.
  intros Hmax [Hlive Hstored]. unfold addToQueue. cbv zeta.
  set (l := fresh (dom (heap (world st)))).
  set (st1 := set_syncQueue _ _).
  assert (queueInv P st1) as Hb1.
  { split; [|done]. intros l' item'. simpl.
    destruct (decide (l' = l)) as [->|Hne].
    - rewrite lookup_insert_eq. intros _ [= <-]. by apply P_new.
    - rewrite lookup_insert_ne by done.
      intros [Hl'| ->%list_elem_of_singleton]%elem_of_app; [|done].
      by apply Hlive. }
  apply (saveQueue_inv P (saveOutcome env)) in Hb1.
  simpl. destruct (truthy _); [|done]. by apply syncAll_inv.
Qed.

Lemma exec_inv c st :
  0 ≤ maxRetries (this st) → queueInv P st → queueInv P (exec c st).
Proof.
  intros Hmax Hb. destruct c; simpl.
  - unfold initialize.
    apply (loadQueue_inv P read) in Hb.
    destruct probe; simpl; by apply (queueInv_frame P (loadQueue read st)).
  - unfold onNetInfoChange.
    destruct (_ && _).
    + apply syncAll_inv. by apply (queueInv_frame P st).
    + by apply (queueInv_frame P st).
  - by apply (queueInv_frame P st).
  - by apply (queueInv_frame P st).
  - by apply addToQueue_inv.
  - by apply syncAll_inv.
  - unfold forceSync. destruct (negb _); [done|]. by apply syncAll_inv.
  - apply saveQueue_inv. by apply (queueInv_empty P st).
  - apply saveQueue_inv. destruct Hb as [Hl Hs]. split; [|done].
    simpl. by apply liveInv_filter.
Qed.

Lemma run_inv calls :
  ∀ st, 0 ≤ maxRetries (this st) → queueInv P st → queueInv P (run calls st).
Proof.
  induction calls as [|c calls IH]; intros st Hmax Hb; [done|].
  simpl. apply IH.
  - by rewrite exec_maxRetries.
  - by apply exec_inv.
Qed.

End QueueInvariant.

(** ** The retry counter stays within the maximum *)

Lemma run_bounded calls st :
  0 ≤ maxRetries (this st) → bounded st → bounded (run calls st).
Proof.
  apply run_inv.
  - intros maxR env op Hmax. done.
  - intros maxR m item _ Hlt. simpl. lia.
Qed.

Lemma addToQueue_bounded env op st :
  0 ≤ maxRetries (this st) → bounded st → bounded (addToQueue env op st).1.
Proof.
  apply addToQueue_inv.
  - intros maxR env' op' Hmax. done.
  - intros maxR m item _ Hlt. simpl. lia.
Qed.

(** ** Every queued item is tried by the next pass *)

Lemma run_allEligible calls st :
  0 ≤ maxRetries (this st) → allEligible st → allEligible (run calls st).
Proof.
  apply run_inv.
  - intros maxR env op Hmax. done.
  - intros maxR m item _ Hlt. unfold eligible. simpl.
    apply bool_decide_eq_true. lia.
Qed.

Lemma allEligible_newManager : allEligible newManager.
Proof.
  split.
  - intros l item Hl. by apply elem_of_nil in Hl.
  - by intros items.
Qed.

(** ** The life of an item that is never delivered *)

(** C1. An item enqueued with a unique id (retry counter 0, status
    ['pending']) whose delivery fails in every drain pass: after its
    [k]-th failed pass, [0 < k < maxRetries], it is still in the queue
    with retry counter [k] and status ['failed']; after the pass in which
    the counter reaches [maxRetries] it is no longer in the queue, and no
    later pass requests it or puts it back.  Moreover, whatever calls are
    made on the manager, no item of the queue ever holds a retry counter
    above [maxRetries]. *)
Theorem failing_item_is_retried_then_evicted l item envs st :
  wf st → 0 < maxRetries (this st) →
  l ∈ syncQueue (this st) → heap (world st) !! l = Some item →
  retries item = 0 → status item = "pending" →
  failedPasses l envs st →
  (0 < Z.of_nat (length envs) < maxRetries (this st) →
     l ∈ syncQueue (this (runPasses envs st))
     ∧ (∃ item', heap (world (runPasses envs st)) !! l = Some item'
                 ∧ retries item' = Z.of_nat (length envs)
                 ∧ status item' = "failed"))
  ∧ (Z.of_nat (length envs) = maxRetries (this st) →
     (l ∉ syncQueue (this (runPasses envs st)))
     ∧ (∃ item', heap (world (runPasses envs st)) !! l = Some item'
                 ∧ retries item' = maxRetries (this st))
     ∧ (∀ later,
          (l ∉ syncQueue (this (runPasses later (runPasses envs st))))
          ∧ (∃ extra, requests (world (runPasses later (runPasses envs st)))
                      = requests (world (runPasses envs st)) ++ extra
                      ∧ (l ∉ extra))))
  ∧ (bounded st →
     ∀ calls l' item',
       l' ∈ syncQueue (this (run calls st)) →
       heap (world (run calls st)) !! l' = Some item' →
       retries item' ≤ maxRetries (this st)).
Proof.
  intros Hwf Hmax Hl Hitem Hr Hs Hfp. split_and!.
  - intros Hk.
    destruct (failing_passes_below l envs st item) as (Hq & item' & Hh & Hr' & Hs' & _);
      try done; [by left|lia|].
    split; [done|]. exists item'. split_and!; [done|lia|].
    rewrite Hs'. destruct envs; [simpl in Hk; lia|done].
  - intros Hk.
    assert (envs ≠ []) as Hne by (intros ->; simpl in Hk; lia).
    destruct (failing_passes_evicted l envs st item) as (Hq & Hh);
      try done; [by left|lia|].
    split_and!; [done|done|].
    intros later. apply unqueued_passes; [|done]. by apply runPasses_wf.
  - intros Hb calls l' item' Hl' Hitem'.
    destruct (run_bounded calls st) as [Hlive _]; [lia|done|].
    rewrite <- (run_maxRetries calls st). by eapply Hlive.
Qed.

Lemma bounded_oneQueued : bounded oneQueued.
Proof.
  apply (queueInv_frame _
           (addToQueue (enqueueAt 1001 Resolves) attendanceU1 offlineManager).1);
    try done.
  apply addToQueue_bounded; [done|]. split.
  - intros l item Hl. by apply elem_of_nil in Hl.
  - by intros items.
Qed.

Lemma failsFor_serverDown l : failsFor serverDown l.
Proof. intros item. by eexists. Qed.

(** One queued item, three passes answered with HTTP 500. *)
Lemma failing_item_is_retried_then_evicted_witness :
  wf oneQueued ∧ 0 < maxRetries (this oneQueued)
  ∧ 1%positive ∈ syncQueue (this oneQueued)
  ∧ heap (world oneQueued) !! 1%positive
    = Some (newQueueItem (enqueueAt 1001 Resolves) attendanceU1)
  ∧ failedPasses 1%positive [serverDown; serverDown; serverDown] oneQueued
  ∧ (1%positive ∉ syncQueue (this (runPasses [serverDown; serverDown; serverDown]
                                             oneQueued))).
Proof.
  assert (failedPasses 1%positive [serverDown; serverDown; serverDown] oneQueued)
    as Hfp.
  { repeat split; auto using failsFor_serverDown. }
  assert (1%positive ∈ syncQueue (this oneQueued)) as Hin.
  { apply list_elem_of_singleton. reflexivity. }
  split; [exact wf_oneQueued|].
  split; [reflexivity|].
  split; [exact Hin|].
  split; [reflexivity|].
  split; [exact Hfp|].
  apply (failing_item_is_retried_then_evicted
           1%positive (newQueueItem (enqueueAt 1001 Resolves) attendanceU1)
           [serverDown; serverDown; serverDown] oneQueued
           wf_oneQueued eq_refl Hin eq_refl eq_refl eq_refl Hfp).
  reflexivity.
Defined.

(** ** Rejected invocations *)

(** C3 (amended). [syncAll] called while a pass is under way returns
    [{success: false, reason: 'sync_in_progress'}], online or not; called
    while offline with no pass under way it returns
    [{success: false, reason: 'offline'}]; in both cases nothing throws
    and the state (queue, storage, flags) is the state before the call.
    [forceSync] while offline throws ['Cannot sync while offline'] and
    leaves the state as it was; while online it is [syncAll]. *)
Theorem rejected_sync_changes_nothing env st :
  (syncInProgress (this st) = true →
     syncAll env st = (st, Ok (Rejected "sync_in_progress")))
  ∧ (truthy (isOnline (this st)) = false → syncInProgress (this st) = false →
     syncAll env st = (st, Ok (Rejected "offline")))
  ∧ (truthy (isOnline (this st)) = false →
     forceSync env st = (st, Throw "Cannot sync while offline"))
  ∧ (truthy (isOnline (this st)) = true → forceSync env st = syncAll env st).
Proof.
  split_and!.
  - intros Hip. rewrite syncAll_rejected.
    + by rewrite Hip.
    + unfold canDrain. rewrite Hip. apply andb_false_r.
  - intros Hoff Hip. rewrite syncAll_rejected.
    + by rewrite Hip.
    + unfold canDrain. by rewrite Hoff.
  - intros Hoff. unfold forceSync. by rewrite Hoff.
  - intros Hon. unfold forceSync. by rewrite Hon.
Qed.

(** A call during a pass, and calls on a manager that is offline and
    idle. *)
Lemma rejected_sync_changes_nothing_witness :
  syncInProgress (this drainingOffline) = true
  ∧ syncAll serverDown drainingOffline
    = (drainingOffline, Ok (Rejected "sync_in_progress"))
  ∧ truthy (isOnline (this offlineManager)) = false
  ∧ syncInProgress (this offlineManager) = false
  ∧ syncAll serverDown offlineManager = (offlineManager, Ok (Rejected "offline"))
  ∧ forceSync serverDown offlineManager
    = (offlineManager, Throw "Cannot sync while offline").
Proof.
  split; [reflexivity|].
  split.
  { apply (rejected_sync_changes_nothing serverDown drainingOffline).
    reflexivity. }
  split; [reflexivity|].
  split; [reflexivity|].
  split.
  { apply (rejected_sync_changes_nothing serverDown offlineManager);
      reflexivity. }
  apply (rejected_sync_changes_nothing serverDown offlineManager).
  reflexivity.
Defined.

(** C3, as stated, fails: offline while a pass is under way, the reason
    returned is ['sync_in_progress'], not ['offline']. *)
Lemma syncAll_offline_while_draining :
  truthy (isOnline (this drainingOffline)) = false
  ∧ (syncAll serverDown drainingOffline).2 = Ok (Rejected "sync_in_progress")
  ∧ (syncAll serverDown drainingOffline).2 ≠ Ok (Rejected "offline").
Proof. split; [done|]. split; [done|]. by vm_compute. Qed.

(** ** Leaving the draining state *)

Lemma syncStep_frame env st res l :
  sameFlags st (syncStep env (st, res) l).1
  ∧ sameOutside st (syncStep env (st, res) l).1.
Proof.
  destruct (heap (world st) !! l) as [item|] eqn:Hl.
  - rewrite (syncStep_fate _ _ _ _ item Hl).
    destruct (fate _ _ _ _); by repeat split.
  - rewrite syncStep_unallocated by done. by repeat split.
Qed.

Lemma syncLoop_frame env todo :
  ∀ st res,
    sameFlags st (foldl (syncStep env) (st, res) todo).1
    ∧ sameOutside st (foldl (syncStep env) (st, res) todo).1.
Proof.
  induction todo as [|l todo IH]; intros st res.
  { by repeat split. }
  cbn [foldl]. destruct (syncStep_frame env st res l) as [Hf1 Ho1].
  destruct (syncStep env (st, res) l) as [st1 res1]. cbn [fst] in *.
  destruct (IH st1 res1) as [Hf2 Ho2].
  eauto using sameFlags_trans, sameOutside_trans.
Qed.

Lemma syncAll_stuck env st :
  syncInProgress (this st) = true → (syncAll env st).1 = st.
Proof.
  intros Hip. rewrite syncAll_rejected; [done|].
  unfold canDrain. rewrite Hip. apply andb_false_r.
Qed.

Lemma exec_stuck c st :
  syncInProgress (this st) = true → syncInProgress (this (exec c st)) = true.
Proof.
  intros Hip. destruct c; simpl.
  - unfold initialize, loadQueue.
    destruct read, probe; simpl; try done;
      destruct (queueSlot (world st)) as [[items| |]|]; try done;
      by destruct (allocItems items _).
  - unfold onNetInfoChange. destruct (_ && _); [|done].
    by rewrite syncAll_stuck.
  - done.
  - done.
  - unfold addToQueue. cbv zeta. simpl.
    destruct (truthy _); [rewrite syncAll_stuck|]; by rewrite saveQueue_this.
  - by rewrite syncAll_stuck.
  - unfold forceSync. destruct (negb _); [done|]. by rewrite syncAll_stuck.
  - unfold clearQueue. by rewrite saveQueue_this.
  - unfold removeQueueItem. by rewrite saveQueue_this.
Qed.

Lemma run_stuck calls :
  ∀ st, syncInProgress (this st) = true →
        syncInProgress (this (run calls st)) = true.
Proof.
  induction calls as [|c calls IH]; intros st Hip; [done|].
  simpl. by apply IH, exec_stuck.
Qed.

(** What a pass that runs leaves in the flags and in the event log. *)
Lemma pass_flags_and_events env st :
  canDrain st = true →
  ∃ results,
    match statusWrite env with
    | Resolves =>
        (syncAll env st).2 = Ok (Completed results)
        ∧ syncInProgress (this (syncAll env st).1) = false
        ∧ emitted (world (syncAll env st).1)
          = emitted (world st) ++ startedEvents st ++ completedEvents results st
    | Rejects m =>
        (syncAll env st).2 = Throw m
        ∧ syncInProgress (this (syncAll env st).1) = true
        ∧ emitted (world (syncAll env st).1) = emitted (world st) ++ startedEvents st
    end.
Proof.
  intros Hc. rewrite syncAll_runs by done. unfold drainLoop.
  destruct (syncLoop_frame env (syncQueue (this (beginPass st))) (beginPass st)
              {| total := length (syncQueue (this (beginPass st)));
                 succeeded := 0; failed := 0; errors := [] |})
    as [(_ & Hip & Hls & _) (_ & _ & _ & Hem & _)].
  destruct (foldl _ _ _) as [st1 results]. cbn [fst] in *.
  exists results. unfold endPass. cbn [fst snd].
  assert (this (saveQueue (queueWrite env) st1) = this st1) as Hthis
    by apply saveQueue_this.
  assert (emitted (world (saveQueue (queueWrite env) st1)) = emitted (world st1))
    as Hem' by (by destruct (queueWrite env)).
  destruct (statusWrite env) as [|m]; simpl.
  - split_and!; [done|done|].
    rewrite Hem', Hem, Hthis, Hls. simpl.
    by rewrite <- app_assoc.
  - split_and!; [done| |].
    + by rewrite Hthis, Hip.
    + by rewrite Hem', Hem.
Qed.

(** C4 fails on the code when the write of the last-sync status is
    rejected.  A pass that runs ends idle, with the completion event
    delivered, when that write succeeds, however many deliveries failed.
    When that write is rejected, [syncAll] throws after the loop:
    [syncInProgress] is still set, no completion event is delivered, and
    from then on the flag stays set whatever is called, every [syncAll]
    being rejected with ['sync_in_progress']. *)
Theorem status_write_decides_return_to_idle env st :
  canDrain st = true →
  ∃ results,
    match statusWrite env with
    | Resolves =>
        (syncAll env st).2 = Ok (Completed results)
        ∧ syncInProgress (this (syncAll env st).1) = false
        ∧ emitted (world (syncAll env st).1)
          = emitted (world st) ++ startedEvents st ++ completedEvents results st
    | Rejects m =>
        (syncAll env st).2 = Throw m
        ∧ syncInProgress (this (syncAll env st).1) = true
        ∧ emitted (world (syncAll env st).1) = emitted (world st) ++ startedEvents st
        ∧ ∀ calls env',
            syncInProgress (this (run calls (syncAll env st).1)) = true
            ∧ (syncAll env' (run calls (syncAll env st).1)).2
              = Ok (Rejected "sync_in_progress")
    end.
Proof.
  intros Hc. destruct (pass_flags_and_events env st Hc) as [results Hres].
  exists results. destruct (statusWrite env) as [|m]; [done|].
  destruct Hres as (Hret & Hip & Hem). split_and!; try done.
  intros calls env'.
  pose proof (run_stuck calls _ Hip) as Hstuck. split; [done|].
  rewrite syncAll_rejected.
  - by rewrite Hstuck.
  - unfold canDrain. rewrite Hstuck. apply andb_false_r.
Qed.

(** One subscriber, one queued item, and storage rejects the write of the
    status: the pass never ends for the manager. *)
Lemma status_write_decides_return_to_idle_witness :
  canDrain watchedQueue = true
  ∧ (syncAll statusWriteFails watchedQueue).2 = Throw "disk full"
  ∧ syncInProgress (this (syncAll statusWriteFails watchedQueue).1) = true
  ∧ emitted (world (syncAll statusWriteFails watchedQueue).1)
    = [(7%nat, ESyncStarted)]
  ∧ (syncAll serverDown (syncAll statusWriteFails watchedQueue).1).2
    = Ok (Rejected "sync_in_progress").
Proof.
  split; [reflexivity|].
  destruct (status_write_decides_return_to_idle statusWriteFails watchedQueue
              eq_refl) as (results & Hret & Hip & Hem & Hstuck).
  split; [exact Hret|].
  split; [exact Hip|].
  split; [exact Hem|].
  exact (proj2 (Hstuck [] serverDown)).
Defined.

(** ** Enqueueing while offline *)

Lemma addToQueue_offline_step env op st :
  truthy (isOnline (this st)) = false → allocated st →
  queueItems (addToQueue env op st).1 = queueItems st ++ [newQueueItem env op]
  ∧ syncQueue (this (addToQueue env op st).1)
    = syncQueue (this st) ++ [fresh (dom (heap (world st)))]
  ∧ heap (world (addToQueue env op st).1)
    = <[fresh (dom (heap (world st))) := newQueueItem env op]> (heap (world st))
  ∧ (addToQueue env op st).2 = newId env
  ∧ sameFlags st (addToQueue env op st).1
  ∧ allocated (addToQueue env op st).1
  ∧ match saveOutcome env with
    | Resolves =>
        queueSlot (world (addToQueue env op st).1)
        = Some (QItems (queueItems (addToQueue env op st).1))
        ∧ console (world (addToQueue env op st).1) = console (world st)
    | Rejects m =>
        queueSlot (world (addToQueue env op st).1) = queueSlot (world st)
        ∧ console (world (addToQueue env op st).1)
          = console (world st) ++ ["Failed to save sync queue: " +:+ m]
    end.
Proof.
  intros Hoff Halloc. rewrite addToQueue_offline by done. cbn [fst snd].
  pose proof (fresh_heap_None (heap (world st))) as Hfresh.
  rewrite saveQueue_queueItems, saveQueue_this, saveQueue_heap.
  rewrite queueItems_alloc by done.
  split_and!; try done.
  - unfold sameFlags. by rewrite saveQueue_this.
  - unfold allocated. intros l. rewrite saveQueue_this, saveQueue_heap. simpl.
    intros [Hl| ->%list_elem_of_singleton]%elem_of_app.
    + destruct (Halloc l Hl) as [x Hx].
      rewrite lookup_insert_ne; [eauto|]. intros <-. congruence.
    + rewrite lookup_insert_eq. eauto.
  - destruct (saveOutcome env); simpl; [|done].
    by rewrite queueItems_alloc.
Qed.

Lemma enqueueAll_cons env op calls st :
  enqueueAll ((env, op) :: calls) st
  = ((enqueueAll calls (addToQueue env op st).1).1,
     (addToQueue env op st).2 :: (enqueueAll calls (addToQueue env op st).1).2).
Proof.
  cbn [enqueueAll]. destruct (addToQueue env op st) as [st1 x]. cbn [fst snd].
  by destruct (enqueueAll calls st1).
Qed.

Lemma enqueueAll_offline calls :
  ∀ st, truthy (isOnline (this st)) = false → allocated st →
        queueItems (enqueueAll calls st).1
        = queueItems st ++ map (λ c, newQueueItem c.1 c.2) calls
        ∧ length (syncQueue (this (enqueueAll calls st).1))
          = (length (syncQueue (this st)) + length calls)%nat
        ∧ (enqueueAll calls st).2 = map (λ c, newId c.1) calls
        ∧ truthy (isOnline (this (enqueueAll calls st).1)) = false
        ∧ allocated (enqueueAll calls st).1.
Proof.
  induction calls as [|[env op] calls IH]; intros st Hoff Halloc.
  { simpl. rewrite app_nil_r. split_and!; try done; lia. }
  destruct (addToQueue_offline_step env op st Hoff Halloc)
    as (Hitems & Hq & _ & Hid & (Hon & _) & Halloc1 & _).
  rewrite enqueueAll_cons. cbn [fst snd map length].
  destruct (IH (addToQueue env op st).1)
    as (Hitems2 & Hlen2 & Hids2 & Hoff2 & Halloc2); [by rewrite Hon|done|].
  split_and!; try done.
  - by rewrite Hitems2, Hitems, <- app_assoc.
  - rewrite Hlen2, Hq, length_app. simpl. lia.
  - by rewrite Hid, Hids2.
Qed.

(** C5 (amended). Starting from an empty queue, any number of
    [addToQueue] calls made while offline leaves as many items in the
    in-memory queue, in call order; one more call appends exactly one new
    object holding status ['pending'], retry counter 0, the caller's type,
    data and url and the method (['POST'] when omitted), asks storage to
    write the whole queue, and returns the id of the new item.  The stored
    queue is the in-memory queue when that write succeeds; when it is
    rejected, the failure is logged and the stored queue is the one of
    before the call. *)
Theorem enqueue_offline_appends_one_item calls env op st :
  truthy (isOnline (this st)) = false → syncQueue (this st) = [] →
  queueItems (enqueueAll calls st).1 = map (λ c, newQueueItem c.1 c.2) calls
  ∧ length (syncQueue (this (enqueueAll calls st).1)) = length calls
  ∧ (enqueueAll calls st).2 = map (λ c, newId c.1) calls
  ∧ queueItems (addToQueue env op (enqueueAll calls st).1).1
    = queueItems (enqueueAll calls st).1 ++ [newQueueItem env op]
  ∧ length (syncQueue (this (addToQueue env op (enqueueAll calls st).1).1))
    = S (length calls)
  ∧ (addToQueue env op (enqueueAll calls st).1).2 = id (newQueueItem env op)
  ∧ status (newQueueItem env op) = "pending"
  ∧ retries (newQueueItem env op) = 0
  ∧ operation (newQueueItem env op) = op_type op
  ∧ data (newQueueItem env op) = op_data op
  ∧ url (newQueueItem env op) = op_url op
  ∧ method (newQueueItem env op)
    = match op_method op with
      | None => "POST"
      | Some m => if decide (m = "") then "POST" else m
      end
  ∧ match saveOutcome env with
    | Resolves =>
        queueSlot (world (addToQueue env op (enqueueAll calls st).1).1)
        = Some (QItems (queueItems (addToQueue env op (enqueueAll calls st).1).1))
    | Rejects m =>
        queueSlot (world (addToQueue env op (enqueueAll calls st).1).1)
        = queueSlot (world (enqueueAll calls st).1)
        ∧ console (world (addToQueue env op (enqueueAll calls st).1).1)
          = console (world (enqueueAll calls st).1)
            ++ ["Failed to save sync queue: " +:+ m]
    end.
Proof.
  intros Hoff Hq.
  assert (allocated st) as Halloc.
  { intros l Hl. rewrite Hq in Hl. by apply elem_of_nil in Hl. }
  assert (queueItems st = []) as Hitems0.
  { unfold queueItems. by rewrite Hq. }
  destruct (enqueueAll_offline calls st Hoff Halloc)
    as (Hitems & Hlen & Hids & Hoff' & Halloc').
  rewrite Hitems0 in Hitems. rewrite Hq in Hlen. simpl in Hitems, Hlen.
  destruct (addToQueue_offline_step env op _ Hoff' Halloc')
    as (Hitems1 & Hq1 & _ & Hid & _ & _ & Hsave).
  split_and!; try done.
  - rewrite Hq1, length_app, Hlen. simpl. lia.
  - destruct (saveOutcome env); [by destruct Hsave|done].
Qed.

(** Two operations enqueued while offline, both writes succeed. *)
Lemma enqueue_offline_appends_one_item_witness :
  truthy (isOnline (this offlineManager)) = false
  ∧ syncQueue (this offlineManager) = []
  ∧ queueSlot (world (addToQueue (enqueueAt 1002 Resolves) attendanceU2
                        (enqueueAll [(enqueueAt 1001 Resolves, attendanceU1)]
                                    offlineManager).1).1)
    = Some (QItems [newQueueItem (enqueueAt 1001 Resolves) attendanceU1;
                    newQueueItem (enqueueAt 1002 Resolves) attendanceU2]).
Proof.
  split; [reflexivity|]. split; [reflexivity|].
  pose proof (enqueue_offline_appends_one_item
                [(enqueueAt 1001 Resolves, attendanceU1)]
                (enqueueAt 1002 Resolves) attendanceU2 offlineManager
                eq_refl eq_refl) as H.
  exact (proj2 (proj2 (proj2 (proj2 (proj2 (proj2 (proj2 (proj2 (proj2
           (proj2 (proj2 (proj2 H)))))))))))).
Defined.

(** C5, as stated, fails: when the write is rejected the stored queue
    does not hold the item just enqueued. *)
Lemma enqueue_write_failure_is_not_persisted :
  truthy (isOnline (this offlineManager)) = false
  ∧ syncQueue (this offlineManager) = []
  ∧ length (syncQueue (this (addToQueue (enqueueAt 1001 (Rejects "disk full"))
                                        attendanceU1 offlineManager).1)) = 1%nat
  ∧ queueSlot (world (addToQueue (enqueueAt 1001 (Rejects "disk full"))
                                 attendanceU1 offlineManager).1) = None.
Proof. by vm_compute. Qed.

(** ** Storage failures *)

Lemma syncAll_console env st :
  canDrain st = true →
  console (world (syncAll env st).1)
  = console (world st)
    ++ match queueWrite env with
       | Resolves => []
       | Rejects m => ["Failed to save sync queue: " +:+ m]
       end.
Proof.
  intros Hc. rewrite syncAll_runs by done. unfold drainLoop.
  destruct (syncLoop_frame env (syncQueue (this (beginPass st))) (beginPass st)
              {| total := length (syncQueue (this (beginPass st)));
                 succeeded := 0; failed := 0; errors := [] |})
    as [_ (_ & _ & Hcon & _)].
  destruct (foldl _ _ _) as [st1 results]. cbn [fst] in *.
  unfold endPass. cbn [fst snd].
  destruct (queueWrite env), (statusWrite env); simpl;
    rewrite Hcon; simpl; by rewrite ?app_nil_r.
Qed.

(** C6 fails on the code for the write of the last-sync status made by
    [syncAll].  Reading: an absent slot leaves the queue as it is (empty on
    a new manager), a text that does not parse and a rejected read empty
    it, and none of them throws.  Writing the queue: a rejected write is
    caught and logged by [saveQueue], whoever calls it.  But when the
    write of the last-sync status is rejected, [syncAll] and [forceSync]
    throw that error to their caller, and nothing is logged for it. *)
Theorem status_write_failure_reaches_the_caller env st m :
  canDrain st = true → statusWrite env = Rejects m →
  (queueSlot (world st) = None →
     syncQueue (this (loadQueue Resolves st)) = syncQueue (this st))
  ∧ (queueSlot (world st) = Some QCorrupt →
     syncQueue (this (loadQueue Resolves st)) = [])
  ∧ (∀ m', syncQueue (this (loadQueue (Rejects m') st)) = [])
  ∧ (∀ m', saveQueue (Rejects m') st
           = log_error ("Failed to save sync queue: " +:+ m') st)
  ∧ (syncAll env st).2 = Throw m
  ∧ (forceSync env st).2 = Throw m
  ∧ console (world (syncAll env st).1)
    = console (world st)
      ++ match queueWrite env with
         | Resolves => []
         | Rejects m' => ["Failed to save sync queue: " +:+ m']
         end.
Proof.
  intros Hc Hw. split_and!.
  - intros Hs. unfold loadQueue. by rewrite Hs.
  - intros Hs. unfold loadQueue. by rewrite Hs.
  - done.
  - done.
  - rewrite syncAll_runs, endPass_result by done. by rewrite Hw.
  - unfold forceSync.
    apply andb_true_iff in Hc as Hc'. destruct Hc' as [-> _]. simpl.
    rewrite syncAll_runs, endPass_result by done. by rewrite Hw.
  - by apply syncAll_console.
Qed.

(** [forceSync] when storage rejects the write of the status: the error
    reaches the caller and the console stays empty. *)
Lemma status_write_failure_reaches_the_caller_witness :
  canDrain watchedQueue = true
  ∧ statusWrite statusWriteFails = Rejects "disk full"
  ∧ (forceSync statusWriteFails watchedQueue).2 = Throw "disk full"
  ∧ console (world (syncAll statusWriteFails watchedQueue).1) = [].
Proof.
  split; [reflexivity|]. split; [reflexivity|].
  pose proof (status_write_failure_reaches_the_caller
                statusWriteFails watchedQueue "disk full" eq_refl eq_refl)
    as (_ & _ & _ & _ & _ & Hforce & Hcon).
  split; [exact Hforce|exact Hcon].
Defined.

(** ** Initialisation and connectivity *)

(** C7 (amended). A failure of the storage read is caught inside
    [loadQueue] and does not show in the result of [initialize].
    [initialize] has no handler of its own: when the reachability probe
    fails, the error goes to the caller and the online flag keeps its
    value ([true] on a new manager); when the probe answers, the result is
    the probed value, whatever it is. *)
Theorem initialize_reports_the_probe read probe st :
  (initialize read probe st).2
  = match probe with
    | Ok state => Ok (js_and (isConnected state) (isInternetReachable state))
    | Throw m => Throw m
    end
  ∧ checkOnlineStatus (initialize read probe st).1
    = match probe with
      | Ok state => js_and (isConnected state) (isInternetReachable state)
      | Throw _ => checkOnlineStatus st
      end
  ∧ (initialize read probe st).2 = (initialize Resolves probe st).2
  ∧ netHandlers (world (initialize read probe st).1) = S (netHandlers (world st)).
Proof.
  unfold initialize, checkOnlineStatus, loadQueue.
  destruct probe as [state|m], read as [|m'];
    destruct (queueSlot (world st)) as [[items| |]|];
    try destruct (allocItems items _); by repeat split.
Qed.

(** C7, as stated, fails: the error of the probe is not caught. *)
Lemma initialize_probe_error_propagates :
  (initialize Resolves (Throw "NetInfo unavailable") newManager).2
  = Throw "NetInfo unavailable"
  ∧ (initialize Resolves (Throw "NetInfo unavailable") newManager).2
    ≠ Ok (Some true).
Proof. split; [done|]. by vm_compute. Qed.

Lemma syncAll_isOnline env st :
  isOnline (this (syncAll env st).1) = isOnline (this st)
  ∧ listeners (this (syncAll env st).1) = listeners (this st).
Proof.
  destruct (canDrain st) eqn:Hc.
  2:{ by rewrite syncAll_rejected. }
  rewrite syncAll_runs by done. unfold drainLoop.
  destruct (syncLoop_frame env (syncQueue (this (beginPass st))) (beginPass st)
              {| total := length (syncQueue (this (beginPass st)));
                 succeeded := 0; failed := 0; errors := [] |})
    as [(Hon & _ & Hls & _) _].
  destruct (endPass_queue env
              (foldl (syncStep env)
                 (beginPass st,
                  {| total := length (syncQueue (this (beginPass st)));
                     succeeded := 0; failed := 0; errors := [] |})
                 (syncQueue (this (beginPass st)))))
    as (_ & _ & _ & _ & -> & ->).
  by rewrite Hon, Hls.
Qed.





(** ** Conflict resolution *)




(** ** Removing an item *)

Lemma omap_filter_id (h : gmap loc QueueItem) x (q : list loc) :
  omap (λ l, h !! l) (filter (λ l, idAt h l ≠ Some x) q)
  = filter (λ item, id item ≠ x) (omap (λ l, h !! l) q).
Proof.
  induction q as [|l q IH]; [done|].
  rewrite filter_cons.
  destruct (decide (idAt h l ≠ Some x)) as [Hd|Hd]; csimpl;
    unfold idAt in Hd; destruct (h !! l) as [item|] eqn:Hl; simpl in Hd.
  - rewrite filter_cons_True by congruence. by rewrite IH.
  - done.
  - rewrite filter_cons_False; [done|].
    intros Hne. apply Hd. congruence.
  - by destruct Hd.
Qed.

(** C10 (amended). [removeQueueItem(id)] removes from the queue exactly
    the items whose id is the argument, all of them, leaves the other
    items unchanged and in the same order, and leaves the online flag, the
    draining flag, the subscribers, the event log, the requests and the
    stored status as they were.  It asks storage to write the resulting
    queue: the stored queue is the resulting queue when that write
    succeeds; when it is rejected, the failure is logged and the stored
    queue stays as it was. *)
Theorem removeQueueItem_removes_exactly_the_id write x st :
  syncQueue (this (removeQueueItem write x st))
  = filter (λ l, idAt (heap (world st)) l ≠ Some x) (syncQueue (this st))
  ∧ queueItems (removeQueueItem write x st)
    = filter (λ item, id item ≠ x) (queueItems st)
  ∧ heap (world (removeQueueItem write x st)) = heap (world st)
  ∧ sameFlags st (removeQueueItem write x st)
  ∧ statusSlot (world (removeQueueItem write x st)) = statusSlot (world st)
  ∧ emitted (world (removeQueueItem write x st)) = emitted (world st)
  ∧ requests (world (removeQueueItem write x st)) = requests (world st)
  ∧ netHandlers (world (removeQueueItem write x st)) = netHandlers (world st)
  ∧ match write with
    | Resolves =>
        queueSlot (world (removeQueueItem write x st))
        = Some (QItems (queueItems (removeQueueItem write x st)))
        ∧ console (world (removeQueueItem write x st)) = console (world st)
    | Rejects m =>
        queueSlot (world (removeQueueItem write x st)) = queueSlot (world st)
        ∧ console (world (removeQueueItem write x st))
          = console (world st) ++ ["Failed to save sync queue: " +:+ m]
    end.
Proof.
  unfold removeQueueItem.
  assert (queueItems (dropId x st) = filter (λ item, id item ≠ x) (queueItems st))
    as Hitems.
  { unfold queueItems. rewrite dropId_queue. simpl. apply omap_filter_id. }
  rewrite saveQueue_queueItems, saveQueue_this, saveQueue_heap.
  split_and!; try done.
  - unfold sameFlags. by rewrite saveQueue_this.
  - by destruct write.
  - by destruct write.
  - by destruct write.
  - by destruct write.
  - destruct write; simpl; [|done]. by rewrite Hitems.
Qed.

(** C10, as stated, fails: when the write is rejected, the stored queue
    still holds the item that was removed. *)
Lemma removal_write_failure_is_not_persisted :
  syncQueue (this (removeQueueItem (Rejects "disk full") 1001 oneStored)) = []
  ∧ queueSlot (world (removeQueueItem (Rejects "disk full") 1001 oneStored))
    = Some (QItems [newQueueItem (enqueueAt 1001 Resolves) attendanceU1]).
Proof. by vm_compute. Qed.

(** ** The scenarios of the specification, run on the model *)

(** Offline, one operation is enqueued. *)
Example scenario_enqueue_offline :
  getQueueStatus oneStored
  = {| qs_total := 1; qs_pending := 1; qs_failed := 0; qs_syncing := false |}.
Proof. reflexivity. Qed.

(** The network is back: the manager drains the queue by itself and the
    delivery succeeds. *)
Example scenario_network_restored :
  statusSlot (world (onNetInfoChange serverUp connected oneStored))
  = Some {| st_timestamp := "2024-01-01T00:00:00.000Z";
            st_results := {| total := 1; succeeded := 1; failed := 0;
                             errors := [] |} |}
  ∧ getQueueStatus (onNetInfoChange serverUp connected oneStored)
    = {| qs_total := 0; qs_pending := 0; qs_failed := 0; qs_syncing := false |}.
Proof. by vm_compute. Qed.

(** An endpoint that always answers HTTP 500: the counter goes 1, 2, and
    the third pass evicts the item; a fourth pass has nothing to try. *)
Example scenario_always_failing :
  retries <$> queueItems (runPasses [serverDown] oneQueued) = [1]
  ∧ retries <$> queueItems (runPasses [serverDown; serverDown] oneQueued) = [2]
  ∧ lastError <$> queueItems (runPasses [serverDown; serverDown] oneQueued)
    = [Some "HTTP 500: Internal Server Error"]
  ∧ queueItems (runPasses [serverDown; serverDown; serverDown] oneQueued) = []
  ∧ (syncAll serverDown
       (runPasses [serverDown; serverDown; serverDown] oneQueued)).2
    = Ok (Completed {| total := 0; succeeded := 0; failed := 0; errors := [] |})
  ∧ requests (world (runPasses [serverDown; serverDown; serverDown; serverDown]
                               oneQueued))
    = [1%positive; 1%positive; 1%positive].
Proof. by vm_compute. Qed.

(** [forceSync] while offline. *)
Example scenario_forceSync_offline :
  forceSync serverUp oneStored = (oneStored, Throw "Cannot sync while offline").
Proof. reflexivity. Qed.

(** Two items, one delivered and one not, in the same pass. *)
Example scenario_one_of_two_fails :
  (syncAll firstFails twoQueued).2
  = Ok (Completed
          {| total := 2; succeeded := 1; failed := 1;
             errors := [ {| err_id := 1001; err_operation := "attendance";
                            err_error := "HTTP 500: Internal Server Error" |} ] |})
  ∧ (id <$> queueItems (syncAll firstFails twoQueued).1) = [1001]
  ∧ (retries <$> queueItems (syncAll firstFails twoQueued).1) = [1].
Proof. by vm_compute. Qed.

(** Ids come from the clock and [Math.random], and nothing checks them.
    With two items that carry the same id, the delivery of the second
    removes the first one too, after its first failure: the statements on
    passes above are about queues whose ids are distinct. *)
Example shared_id_is_removed_together :
  queueItems
    (syncAll firstFails
       (set_isOnline (Some true)
          (enqueueAll [(enqueueAt 1001 Resolves, attendanceU1);
                       (enqueueAt 1001 Resolves, attendanceU2)]
                      offlineManager).1)).1
  = [].
Proof. by vm_compute. Qed.

(** * Further properties of the manager *)

(** ** Loading what was saved *)

Lemma allocItems_spec items :
  ∀ h ls h',
    allocItems items h = (ls, h') →
    omap (λ l, h' !! l) ls = items
    ∧ NoDup ls
    ∧ (∀ l, l ∈ ls → h !! l = None)
    ∧ Forall2 (λ l item, h' !! l = Some item) ls items.
Proof.
  induction items as [|item items IH]; intros h ls h' Ha.
  { injection Ha as <- <-. split_and!; try done; [constructor|].
    intros l Hl. by apply elem_of_nil in Hl. }
  simpl in Ha.
  destruct (allocItems items _) as [ls1 h1] eqn:Hrec.
  injection Ha as <- <-.
  destruct (IH _ _ _ Hrec) as (Hitems & Hnd & Hnew & Hall).
  pose proof (fresh_heap_None h) as Hfresh.
  set (l0 := fresh (dom h)) in *.
  assert (h1 !! l0 = Some item) as Hl0.
  { eapply allocItems_preserves; [exact Hrec|]. apply lookup_insert_eq. }
  assert (l0 ∉ ls1) as Hnin.
  { intros Hin. specialize (Hnew l0 Hin). by rewrite lookup_insert_eq in Hnew. }
  split_and!.
  - csimpl. by rewrite Hl0, Hitems.
  - by constructor.
  - intros l [->|Hl]%elem_of_cons; [done|].
    specialize (Hnew l Hl).
    destruct (decide (l = l0)) as [->|Hne]; [done|].
    by rewrite lookup_insert_ne in Hnew.
  - by constructor.
Qed.

Lemma loadQueue_stored st items :
  queueSlot (world st) = Some (QItems items) →
  queueItems (loadQueue Resolves st) = items
  ∧ NoDup (syncQueue (this (loadQueue Resolves st)))
  ∧ (∀ l, l ∈ syncQueue (this (loadQueue Resolves st)) →
          heap (world st) !! l = None)
  ∧ allocated (loadQueue Resolves st)
  ∧ Forall2 (λ l item, heap (world (loadQueue Resolves st)) !! l = Some item)
            (syncQueue (this (loadQueue Resolves st))) items.
Proof.
  intros Hslot. unfold loadQueue. rewrite Hslot.
  destruct (allocItems items _) as [ls h] eqn:Ha.
  destruct (allocItems_spec _ _ _ _ Ha) as (Hitems & Hnd & Hnew & Hall).
  split_and!; try done.
  intros l Hl. simpl in *.
  apply list_elem_of_lookup in Hl as [i Hi].
  destruct (Forall2_lookup_l _ _ _ _ _ Hall Hi) as (item & _ & Hitem). eauto.
Qed.




(** X2. [clearQueue] empties the in-memory queue at once, but the stored
    queue only if its write succeeds: read back after a successful write
    the queue is empty; after a rejected write, reading back gives the
    items that were stored before, cleared or not. *)
Theorem cleared_queue_comes_back_unless_written write st :
  syncQueue (this (clearQueue write st)) = []
  ∧ getQueueStatus (clearQueue write st)
    = {| qs_total := 0; qs_pending := 0; qs_failed := 0;
         qs_syncing := syncInProgress (this st) |}
  ∧ match write with
    | Resolves => queueItems (loadQueue Resolves (clearQueue write st)) = []
    | Rejects m =>
        ∀ items, queueSlot (world st) = Some (QItems items) →
                 queueItems (loadQueue Resolves (clearQueue write st)) = items
    end.
Proof.
  unfold clearQueue. split_and!.
  - by rewrite saveQueue_this.
  - unfold getQueueStatus. rewrite saveQueue_queueItems, saveQueue_this. done.
  - destruct write as [|m].
    + by apply loadQueue_stored.
    + intros items Hslot. by apply loadQueue_stored.
Qed.

(** One stored item, cleared while storage rejects the write, then read
    back. *)
Lemma cleared_queue_comes_back_unless_written_witness :
  queueSlot (world oneStored)
  = Some (QItems [newQueueItem (enqueueAt 1001 Resolves) attendanceU1])
  ∧ syncQueue (this (clearQueue (Rejects "disk full") oneStored)) = []
  ∧ queueItems (loadQueue Resolves (clearQueue (Rejects "disk full") oneStored))
    = [newQueueItem (enqueueAt 1001 Resolves) attendanceU1].
Proof.
  pose proof (cleared_queue_comes_back_unless_written
                (Rejects "disk full") oneStored) as (Hq & _ & Hback).
  split; [reflexivity|]. split; [exact Hq|].
  apply Hback. reflexivity.
Defined.

(** ** Who receives events *)

Lemma syncAll_recipients env st :
  ∃ rest, emitted (world (syncAll env st).1) = emitted (world st) ++ rest
          ∧ Forall (λ p, p.1 ∈ listeners (this st)) rest.
Proof.
  assert (∀ ev, Forall (λ p : Listener * Event, p.1 ∈ listeners (this st))
                       (map (λ l, (l, ev)) (listeners (this st)))) as Hmap.
  { intros ev. apply Forall_forall. intros p (l & -> & Hl)%list_elem_of_fmap.
    done. }
  destruct (canDrain st) eqn:Hc.
  2:{ rewrite syncAll_rejected by done. exists []. by rewrite app_nil_r. }
  destruct (pass_flags_and_events env st Hc) as [results Hres].
  destruct (statusWrite env).
  - destruct Hres as (_ & _ & ->). eexists. split; [done|].
    apply Forall_app. split; apply Hmap.
  - destruct Hres as (_ & _ & ->). eexists. split; [done|]. apply Hmap.
Qed.

Lemma exec_listeners c st :
  listeners (this (exec c st))
  = match c with
    | CSubscribe l => listeners (this st) ++ [l]
    | CUnsubscribe l => filter (λ l', l' ≠ l) (listeners (this st))
    | _ => listeners (this st)
    end.
Proof.
  destruct c; simpl; try done.
  - unfold initialize, loadQueue.
    destruct read, probe; simpl; try done;
      destruct (queueSlot (world st)) as [[items| |]|]; try done;
      by destruct (allocItems items _).
  - unfold onNetInfoChange. destruct (_ && _); [|done].
    by rewrite (proj2 (syncAll_isOnline _ _)).
  - unfold addToQueue. cbv zeta. simpl.
    destruct (truthy _); [rewrite (proj2 (syncAll_isOnline _ _))|];
      by rewrite saveQueue_this.
  - apply syncAll_isOnline.
  - unfold forceSync. destruct (negb _); [done|]. apply syncAll_isOnline.
  - unfold clearQueue. by rewrite saveQueue_this.
  - unfold removeQueueItem. by rewrite saveQueue_this.
Qed.

Lemma exec_recipients c st :
  ∃ rest, emitted (world (exec c st)) = emitted (world st) ++ rest
          ∧ Forall (λ p, p.1 ∈ listeners (this st)) rest.
Proof.
  assert (∀ st', emitted (world st') = emitted (world st) →
                 listeners (this st') = listeners (this st) →
                 ∀ env, ∃ rest,
                   emitted (world (syncAll env st').1) = emitted (world st) ++ rest
                   ∧ Forall (λ p, p.1 ∈ listeners (this st)) rest) as Hsync.
  { intros st' Hem Hls env.
    destruct (syncAll_recipients env st') as (rest & Hrest & Hall).
    exists rest. by rewrite Hrest, Hem, <- Hls. }
  assert (∃ rest, emitted (world st) = emitted (world st) ++ rest
                  ∧ Forall (λ p, p.1 ∈ listeners (this st)) rest) as Hnone.
  { exists []. by rewrite app_nil_r. }
  destruct c; simpl; try done.
  - unfold initialize, loadQueue.
    destruct read, probe; simpl; try done;
      destruct (queueSlot (world st)) as [[items| |]|]; try done;
      by destruct (allocItems items _).
  - unfold onNetInfoChange. cbv zeta.
    set (st2 := notifyListeners _ _).
    assert (∃ evs, emitted (world st2) = emitted (world st) ++ evs
                   ∧ Forall (λ p, p.1 ∈ listeners (this st)) evs
                   ∧ listeners (this st2) = listeners (this st))
      as (evs & Hem2 & Hevs & Hls2).
    { eexists. split; [reflexivity|]. split; [|done].
      apply Forall_forall. intros p (l & -> & Hl)%list_elem_of_fmap. done. }
    destruct (_ && _).
    + destruct (syncAll_recipients env st2) as (rest & Hrest & Hall).
      exists (evs ++ rest). split.
      * by rewrite Hrest, Hem2, <- app_assoc.
      * apply Forall_app. split; [done|]. by rewrite <- Hls2.
    + exists evs. by split.
  - unfold addToQueue. cbv zeta.
    set (st1 := saveQueue _ _).
    assert (emitted (world st1) = emitted (world st)) as Hem.
    { unfold st1. by destruct (saveOutcome env). }
    assert (listeners (this st1) = listeners (this st)) as Hls.
    { unfold st1. by rewrite saveQueue_this. }
    simpl. destruct (truthy _).
    + by apply Hsync.
    + exists []. by rewrite app_nil_r, Hem.
  - by apply Hsync.
  - unfold forceSync. destruct (negb _); [done|]. by apply Hsync.
  - unfold clearQueue. exists []. rewrite app_nil_r.
    split; [by destruct write|done].
  - unfold removeQueueItem. exists []. rewrite app_nil_r.
    split; [by destruct write|done].
Qed.

Lemma run_recipients l calls :
  ∀ st, l ∉ listeners (this st) →
        Forall (λ c, subscribesTo l c = false) calls →
        (l ∉ listeners (this (run calls st)))
        ∧ ∃ rest, emitted (world (run calls st)) = emitted (world st) ++ rest
                  ∧ Forall (λ p, p.1 ≠ l) rest.
Proof.
  induction calls as [|c calls IH]; intros st Hl Hcalls.
  { split; [done|]. exists []. by rewrite app_nil_r. }
  apply Forall_cons in Hcalls as [Hc Hcalls].
  destruct (exec_recipients c st) as (rest1 & Hrest1 & Hall1).
  assert (l ∉ listeners (this (exec c st))) as Hl1.
  { rewrite exec_listeners. destruct c; try done.
    - simpl in Hc. apply bool_decide_eq_false in Hc.
      rewrite elem_of_app, list_elem_of_singleton. intros [?|?]; congruence.
    - rewrite list_elem_of_filter. tauto. }
  destruct (IH (exec c st) Hl1 Hcalls) as (Hl2 & rest2 & Hrest2 & Hall2).
  simpl. split; [done|]. exists (rest1 ++ rest2). split.
  - by rewrite Hrest2, Hrest1, app_assoc.
  - apply Forall_app. split; [|done].
    eapply Forall_impl; [exact Hall1|]. intros p Hp Heq.
    apply Hl. by rewrite <- Heq.
Qed.

(** X3. Once the closure returned by [subscribe] has been called for a
    listener, that listener is called no more, however many times it had
    been subscribed and whatever is called on the manager afterwards, as
    long as it is not subscribed again. *)
Theorem unsubscribed_listener_is_not_called l calls st :
  Forall (λ c, subscribesTo l c = false) calls →
  (l ∉ listeners (this (run calls (unsubscribe l st))))
  ∧ ∃ rest, emitted (world (run calls (unsubscribe l st)))
            = emitted (world st) ++ rest
            ∧ Forall (λ p, p.1 ≠ l) rest.
Proof.
  intros Hcalls.
  apply (run_recipients l calls (unsubscribe l st)); [|done].
  simpl. rewrite list_elem_of_filter. tauto.
Qed.

(** A listener subscribed twice and unsubscribed once, then the network
    comes back and a pass runs: the other listener alone is told. *)
Lemma unsubscribed_listener_is_not_called_witness :
  Forall (λ c, subscribesTo 8%nat c = false)
         [CNetInfo serverUp disconnected; CNetInfo serverUp connected]
  ∧ ∃ rest,
      emitted (world (run [CNetInfo serverUp disconnected;
                           CNetInfo serverUp connected]
                          (unsubscribe 8%nat
                             (subscribe 8%nat (subscribe 8%nat watchedQueue)))))
      = emitted (world (subscribe 8%nat (subscribe 8%nat watchedQueue))) ++ rest
      ∧ Forall (λ p, p.1 ≠ 8%nat) rest.
Proof.
  assert (Forall (λ c, subscribesTo 8%nat c = false)
                 [CNetInfo serverUp disconnected; CNetInfo serverUp connected])
    as Hcalls.
  { repeat constructor. }
  split; [exact Hcalls|].
  exact (proj2 (unsubscribed_listener_is_not_called
                  8%nat _ (subscribe 8%nat (subscribe 8%nat watchedQueue))
                  Hcalls)).
Defined.

(** ** What a pass leaves in storage *)

Lemma pass_storage env st :
  canDrain st = true →
  ∃ results,
    (syncAll env st).2
    = match statusWrite env with
      | Resolves => Ok (Completed results)
      | Rejects m => Throw m
      end
    ∧ statusSlot (world (syncAll env st).1)
      = match statusWrite env with
        | Resolves => Some {| st_timestamp := clock env; st_results := results |}
        | Rejects _ => statusSlot (world st)
        end
    ∧ queueSlot (world (syncAll env st).1)
      = match queueWrite env with
        | Resolves => Some (QItems (queueItems (syncAll env st).1))
        | Rejects _ => queueSlot (world st)
        end.
Proof.
  intros Hc. rewrite syncAll_runs by done. unfold drainLoop.
  destruct (syncLoop_frame env (syncQueue (this (beginPass st))) (beginPass st)
              {| total := length (syncQueue (this (beginPass st)));
                 succeeded := 0; failed := 0; errors := [] |})
    as [_ (Hqs & Hss & _)].
  destruct (foldl _ _ _) as [st1 results]. cbn [fst] in *.
  exists results. unfold endPass, queueItems. cbn [fst snd].
  destruct (queueWrite env), (statusWrite env); simpl; by rewrite ?Hqs, ?Hss.
Qed.

(** X4. A pass over an empty queue sends no request and leaves queue and
    heap as they are; it still stores and returns a result, whose counts
    are all zero, when the write of the status succeeds, and throws when
    that write is rejected. *)
Theorem pass_over_empty_queue env st :
  canDrain st = true → syncQueue (this st) = [] →
  (syncAll env st).2
  = match statusWrite env with
    | Resolves => Ok (Completed {| total := 0; succeeded := 0; failed := 0;
                                   errors := [] |})
    | Rejects m => Throw m
    end
  ∧ requests (world (syncAll env st).1) = requests (world st)
  ∧ syncQueue (this (syncAll env st).1) = []
  ∧ heap (world (syncAll env st).1) = heap (world st)
  ∧ (queueWrite env = Resolves →
     queueSlot (world (syncAll env st).1) = Some (QItems [])).
Proof.
  intros Hc Hq. rewrite syncAll_runs by done. unfold drainLoop.
  change (syncQueue (this (beginPass st))) with (syncQueue (this st)).
  rewrite Hq. cbn [foldl length].
  unfold endPass, saveQueue, queueItems. cbn [fst snd].
  destruct (queueWrite env), (statusWrite env); simpl; rewrite ?Hq;
    split_and!; done.
Qed.

(** A new manager, online, asked to synchronise. *)
Lemma pass_over_empty_queue_witness :
  canDrain newManager = true ∧ syncQueue (this newManager) = []
  ∧ (syncAll serverDown newManager).2
    = Ok (Completed {| total := 0; succeeded := 0; failed := 0; errors := [] |})
  ∧ requests (world (syncAll serverDown newManager).1) = [].
Proof.
  split; [reflexivity|]. split; [reflexivity|].
  pose proof (pass_over_empty_queue serverDown newManager eq_refl eq_refl)
    as (Hret & Hreq & _).
  split; [exact Hret|exact Hreq].
Defined.

(** X5. [getLastSyncStatus] returns what the last completed pass
    returned, stamped with the time of that pass: after a [syncAll] that
    returns its results, it gives exactly these results; after a [syncAll]
    that is rejected or that throws, it gives what it gave before; and it
    gives [null] whenever the read is rejected. *)
Theorem last_status_is_the_last_result env st :
  match (syncAll env st).2 with
  | Ok (Completed results) =>
      getLastSyncStatus Resolves (syncAll env st).1
      = Some {| st_timestamp := clock env; st_results := results |}
  | _ =>
      getLastSyncStatus Resolves (syncAll env st).1
      = getLastSyncStatus Resolves st
  end
  ∧ ∀ m, getLastSyncStatus (Rejects m) (syncAll env st).1 = None.
Proof.
  split; [|done]. destruct (canDrain st) eqn:Hc.
  - destruct (pass_storage env st Hc) as (results & Hret & Hss & _).
    rewrite Hret. unfold getLastSyncStatus. rewrite Hss.
    by destruct (statusWrite env).
  - by rewrite syncAll_rejected.
Qed.

(** X6. Read back after a pass, the queue is the in-memory queue the pass
    has left when the write of the queue succeeded; when that write was
    rejected, it is the queue stored before the pass, with the items the
    pass has delivered or evicted still in it. *)
Theorem pass_is_durable_only_if_written env st :
  canDrain st = true →
  match queueWrite env with
  | Resolves =>
      queueItems (loadQueue Resolves (syncAll env st).1)
      = queueItems (syncAll env st).1
  | Rejects m =>
      ∀ items, queueSlot (world st) = Some (QItems items) →
               queueItems (loadQueue Resolves (syncAll env st).1) = items
  end.
Proof.
  intros Hc. destruct (pass_storage env st Hc) as (results & _ & _ & Hqs).
  destruct (queueWrite env) as [|m].
  - by apply loadQueue_stored.
  - intros items Hslot. apply loadQueue_stored. by rewrite Hqs.
Qed.

(** The only queued item is delivered, the write of the queue is
    rejected: the in-memory queue is empty, and after a restart the item
    is queued again. *)
Lemma pass_is_durable_only_if_written_witness :
  canDrain oneQueued = true
  ∧ queueSlot (world oneQueued)
    = Some (QItems [newQueueItem (enqueueAt 1001 Resolves) attendanceU1])
  ∧ queueItems (syncAll deliversButCannotSave oneQueued).1 = []
  ∧ queueItems (loadQueue Resolves (syncAll deliversButCannotSave oneQueued).1)
    = [newQueueItem (enqueueAt 1001 Resolves) attendanceU1].
Proof.
  split; [reflexivity|]. split; [reflexivity|]. split; [reflexivity|].
  apply (pass_is_durable_only_if_written deliversButCannotSave oneQueued eq_refl).
  reflexivity.
Defined.

(** ** Enqueueing and the drain it may start *)

Lemma wf_ext st st' :
  syncQueue (this st') = syncQueue (this st) →
  heap (world st') = heap (world st) →
  wf st → wf st'.
Proof.
  intros Hq Hh [Hnd Ha Hi]. constructor; rewrite ?Hq, ?Hh; done.
Qed.

Lemma enqueued_wf env op st :
  wf st →
  (∀ l, l ∈ syncQueue (this st) → idAt (heap (world st)) l ≠ Some (newId env)) →
  wf (enqueued env op st).
Proof.
  intros Hwf Hnew.
  apply (wf_ext (addToQueue env op (set_isOnline (Some false) st)).1).
  - rewrite addToQueue_offline by done. simpl. by rewrite saveQueue_this.
  - rewrite addToQueue_offline by done. simpl. by rewrite saveQueue_heap.
  - apply addToQueue_offline_wf; [done| |done]. by apply set_isOnline_wf.
Qed.

Lemma addToQueue_stages env op st :
  addToQueue env op st
  = (if truthy (isOnline (this st))
     then (syncAll (drain env) (saveQueue (saveOutcome env) (enqueued env op st))).1
     else saveQueue (saveOutcome env) (enqueued env op st),
     newId env).
Proof.
  unfold addToQueue, enqueued. cbv zeta. by rewrite saveQueue_this.
Qed.

(** X7. [addToQueue] called while the manager is offline, or while a pass
    is under way, only enqueues: the new object is appended and the write
    of the queue is asked for, but no request is sent, no subscriber is
    told, and the item waits for a pass started by something else. *)
Theorem addToQueue_without_drain env op st :
  canDrain st = false →
  addToQueue env op st
  = (saveQueue (saveOutcome env) (enqueued env op st), newId env)
  ∧ syncQueue (this (addToQueue env op st).1)
    = syncQueue (this st) ++ [fresh (dom (heap (world st)))]
  ∧ heap (world (addToQueue env op st).1) !! fresh (dom (heap (world st)))
    = Some (newQueueItem env op)
  ∧ requests (world (addToQueue env op st).1) = requests (world st)
  ∧ emitted (world (addToQueue env op st).1) = emitted (world st).
Proof.
  intros Hc.
  assert (addToQueue env op st
          = (saveQueue (saveOutcome env) (enqueued env op st), newId env)) as Heq.
  { rewrite addToQueue_stages. destruct (truthy (isOnline (this st))) eqn:Hon;
      [|done].
    rewrite syncAll_stuck; [done|]. rewrite saveQueue_this. simpl.
    unfold canDrain in Hc. rewrite Hon in Hc. simpl in Hc.
    by apply negb_false_iff in Hc. }
  rewrite Heq. cbn [fst]. rewrite saveQueue_this, saveQueue_heap.
  split_and!; try done.
  - simpl. by rewrite lookup_insert_eq.
  - by destruct (saveOutcome env).
  - by destruct (saveOutcome env).
Qed.

(** An operation enqueued online while a pass waits for the answer to
    its first request. *)
Lemma addToQueue_without_drain_witness :
  canDrain (beginPass oneQueued) = false
  ∧ truthy (isOnline (this (beginPass oneQueued))) = true
  ∧ syncQueue (this (addToQueue (enqueueAt 1002 Resolves) attendanceU2
                                (beginPass oneQueued)).1)
    = [1%positive; 2%positive]
  ∧ requests (world (addToQueue (enqueueAt 1002 Resolves) attendanceU2
                                (beginPass oneQueued)).1) = [].
Proof.
  split; [reflexivity|]. split; [reflexivity|].
  pose proof (addToQueue_without_drain (enqueueAt 1002 Resolves) attendanceU2
                (beginPass oneQueued) eq_refl) as (_ & Hq & _ & Hreq & _).
  split; [exact Hq|exact Hreq].
Defined.



(** ** The drain started by a connectivity notification *)

(** X9. A connectivity notification starts a drain pass exactly when the
    manager was offline, both flags reported are [true], and no pass is
    under way: then every eligible item of the queue is requested once;
    otherwise (still online, still or now offline, reachability unknown,
    or a pass under way) no request is sent and the queue is left as it
    is, failed items included. *)
Theorem reconnection_starts_the_drain env state st :
  wf st →
  requests (world (onNetInfoChange env state st))
  = requests (world st)
    ++ (if negb (truthy (isOnline (this st)))
           && truthy (js_and (isConnected state) (isInternetReachable state))
           && negb (syncInProgress (this st))
        then withFate isAttempted env st else [])
  ∧ (negb (truthy (isOnline (this st)))
     && truthy (js_and (isConnected state) (isInternetReachable state))
     && negb (syncInProgress (this st)) = false →
     syncQueue (this (onNetInfoChange env state st)) = syncQueue (this st)
     ∧ heap (world (onNetInfoChange env state st)) = heap (world st))
  ∧ (truthy (js_and (isConnected state) (isInternetReachable state)) = true
     ↔ isConnected state = Some true ∧ isInternetReachable state = Some true).
Proof.
  intros Hwf. unfold onNetInfoChange. cbv zeta.
  set (new := js_and (isConnected state) (isInternetReachable state)).
  set (st2 := notifyListeners _ _).
  change (isOnline (this (set_isOnline new st))) with new.
  assert (wf st2) as Hwf2 by (by apply (wf_ext st)).
  assert (canDrain st2 = truthy new && negb (syncInProgress (this st))) as Hc2
    by done.
  split_and!.
  - destruct (negb (truthy (isOnline (this st)))); simpl;
      [|by rewrite app_nil_r].
    destruct (truthy new) eqn:Hnew; simpl; [|by rewrite app_nil_r].
    destruct (syncInProgress (this st)) eqn:Hip; simpl.
    + rewrite syncAll_rejected by (by rewrite Hc2).
      by rewrite app_nil_r.
    + destruct (pass_spec env st2) as (results & _ & []); [|done|].
      * by rewrite Hc2.
      * by rewrite pd_requests0.
  - destruct (negb (truthy (isOnline (this st)))); simpl; [|done].
    destruct (truthy new) eqn:Hnew; simpl; [|done].
    destruct (syncInProgress (this st)) eqn:Hip; simpl; [|done].
    intros _. by rewrite syncAll_rejected by (by rewrite Hc2).
  - unfold new, js_and, truthy.
    destruct (isConnected state) as [[|]|], (isInternetReachable state) as [[|]|];
      split; try done; by intros [? ?].
Qed.

(** Offline with two items queued, the network comes back: both are
    requested. *)
Lemma reconnection_starts_the_drain_witness :
  wf (set_isOnline (Some false) twoQueued)
  ∧ requests (world (onNetInfoChange serverUp connected
                                     (set_isOnline (Some false) twoQueued)))
    = [1%positive; 2%positive]
  ∧ requests (world (onNetInfoChange serverUp connected twoQueued)) = [].
Proof.
  assert (wf (set_isOnline (Some false) twoQueued)) as Hwf.
  { apply set_isOnline_wf. exact wf_twoQueued. }
  split; [exact Hwf|].
  split.
  - exact (proj1 (reconnection_starts_the_drain
                    serverUp connected (set_isOnline (Some false) twoQueued) Hwf)).
  - exact (proj1 (reconnection_starts_the_drain
                    serverUp connected twoQueued wf_twoQueued)).
Defined.

(** ** Ids stay distinct *)

Lemma NoDup_ids_omap (h : gmap loc QueueItem) (q : list loc) :
  NoDup q →
  (∀ l, l ∈ q → is_Some (h !! l)) →
  (∀ l1 l2, l1 ∈ q → l2 ∈ q → idAt h l1 = idAt h l2 → l1 = l2) →
  NoDup (id <$> omap (λ l, h !! l) q).
Proof.
  induction q as [|l q IH]; intros Hnd Ha Hi; [constructor|].
  apply NoDup_cons in Hnd as [Hnin Hnd].
  destruct (Ha l) as [item Hl]; [left|]. csimpl. rewrite Hl. csimpl.
  constructor.
  - intros (item' & Hid & (l' & Hl' & Hitem')%list_elem_of_omap)%list_elem_of_fmap.
    assert (l = l') as <-; [|done].
    apply Hi; [left|by right|]. unfold idAt. rewrite Hl, Hitem'. simpl.
    by rewrite Hid.
  - apply IH; [done| |].
    + intros l' Hl'. apply Ha. by right.
    + intros l1 l2 H1 H2. apply Hi; by right.
Qed.

Lemma wf_NoDup_ids st : wf st → NoDup (id <$> queueItems st).
Proof. intros [Hnd Ha Hi]. by apply NoDup_ids_omap. Qed.

Lemma dropId_wf x st : wf st → wf (dropId x st).
Proof.
  intros [Hnd Ha Hi]. constructor; simpl.
  - by apply NoDup_filter.
  - intros l [_ Hl]%list_elem_of_filter. by apply Ha.
  - intros l1 l2 [_ H1]%list_elem_of_filter [_ H2]%list_elem_of_filter.
    by apply Hi.
Qed.

Lemma loadQueue_slot read st :
  queueSlot (world (loadQueue read st)) = queueSlot (world st).
Proof.
  unfold loadQueue. destruct read; [|done].
  destruct (queueSlot (world st)) as [[items| |]|] eqn:Hs; try done.
  by destruct (allocItems items _).
Qed.

Lemma loadQueue_wf read st :
  storedDistinct st → wf st → wf (loadQueue read st).
Proof.
  intros Hsd Hwf.
  destruct read as [|m]; [|by apply wf_empty_queue].
  destruct (queueSlot (world st)) as [[items| |]|] eqn:Hslot.
  - destruct (loadQueue_stored st items Hslot) as (_ & Hnd & _ & Halloc & Hall).
    specialize (Hsd items Hslot).
    constructor; [done|done|].
    intros l1 l2 [i Hi]%list_elem_of_lookup [j Hj]%list_elem_of_lookup Hid.
    destruct (Forall2_lookup_l _ _ _ _ _ Hall Hi) as (item1 & Hi1 & Hl1).
    destruct (Forall2_lookup_l _ _ _ _ _ Hall Hj) as (item2 & Hj2 & Hl2).
    unfold idAt in Hid. rewrite Hl1, Hl2 in Hid. simpl in Hid.
    injection Hid as Hid.
    assert (i = j) as ->.
    { eapply (NoDup_lookup (id <$> items)); [done| |].
      - by rewrite list_lookup_fmap, Hi1.
      - rewrite list_lookup_fmap, Hj2. simpl. by rewrite Hid. }
    congruence.
  - unfold loadQueue. by rewrite Hslot.
  - unfold loadQueue. rewrite Hslot. by apply wf_empty_queue.
  - unfold loadQueue. by rewrite Hslot.
Qed.

Lemma saveQueue_distinct write st :
  wf st → storedDistinct st → storedDistinct (saveQueue write st).
Proof.
  intros Hwf Hsd. destruct write; [|done].
  intros items [= <-]. by apply wf_NoDup_ids.
Qed.

Lemma syncAll_distinct env st :
  wf st → storedDistinct st → storedDistinct (syncAll env st).1.
Proof.
  intros Hwf Hsd. destruct (canDrain st) eqn:Hc.
  2:{ by rewrite syncAll_rejected. }
  destruct (pass_storage env st Hc) as (results & _ & _ & Hqs).
  intros items. rewrite Hqs. destruct (queueWrite env).
  - intros [= <-]. by apply wf_NoDup_ids, syncAll_wf.
  - apply Hsd.
Qed.

Lemma storedDistinct_ext st st' :
  queueSlot (world st') = queueSlot (world st) →
  storedDistinct st → storedDistinct st'.
Proof. unfold storedDistinct. by intros ->. Qed.

Lemma exec_distinct c st :
  wf st → storedDistinct st → freshIds [c] st →
  wf (exec c st) ∧ storedDistinct (exec c st).
Proof.
  intros Hwf Hsd [Hfresh _]. destruct c; cbn [exec].
  - assert (wf (loadQueue read st)) as Hwf1 by (by apply loadQueue_wf).
    assert (storedDistinct (loadQueue read st)) as Hsd1.
    { apply (storedDistinct_ext st); [apply loadQueue_slot|done]. }
    unfold initialize. destruct probe; simpl; split;
      first [by apply (wf_ext (loadQueue read st))
            |by apply (storedDistinct_ext (loadQueue read st))].
  - unfold onNetInfoChange. cbv zeta.
    set (st2 := notifyListeners _ _).
    assert (wf st2) as Hwf2 by (by apply (wf_ext st)).
    assert (storedDistinct st2) as Hsd2 by (by apply (storedDistinct_ext st)).
    destruct (_ && _); [|done].
    split; [by apply syncAll_wf|by apply syncAll_distinct].
  - split; [by apply (wf_ext st)|by apply (storedDistinct_ext st)].
  - split; [by apply (wf_ext st)|by apply (storedDistinct_ext st)].
  - rewrite addToQueue_stages. cbn [fst].
    assert (wf (enqueued env op st)) as Hwf0 by (by apply enqueued_wf).
    assert (wf (saveQueue (saveOutcome env) (enqueued env op st))) as Hwf1
      by (by apply saveQueue_wf).
    assert (storedDistinct (saveQueue (saveOutcome env) (enqueued env op st)))
      as Hsd1.
    { apply saveQueue_distinct; [done|]. by apply (storedDistinct_ext st). }
    destruct (truthy _); [|done].
    split; [by apply syncAll_wf|by apply syncAll_distinct].
  - split; [by apply syncAll_wf|by apply syncAll_distinct].
  - unfold forceSync. destruct (negb _); [done|].
    split; [by apply syncAll_wf|by apply syncAll_distinct].
  - unfold clearQueue.
    assert (wf (set_syncQueue [] st)) as Hwf1 by (by apply wf_empty_queue).
    split; [by apply saveQueue_wf|].
    apply saveQueue_distinct; [done|]. by apply (storedDistinct_ext st).
  - unfold removeQueueItem.
    assert (wf (dropId x st)) as Hwf1 by (by apply dropId_wf).
    split; [by apply saveQueue_wf|].
    apply saveQueue_distinct; [done|]. by apply (storedDistinct_ext st).
Qed.

Lemma run_distinct calls :
  ∀ st, wf st → storedDistinct st → freshIds calls st →
        wf (run calls st) ∧ storedDistinct (run calls st).
Proof.
  induction calls as [|c calls IH]; intros st Hwf Hsd Hfresh; [done|].
  destruct Hfresh as [Hc Hrest].
  destruct (exec_distinct c st Hwf Hsd) as [Hwf1 Hsd1]; [by split|].
  simpl. by apply IH.
Qed.

(** X10. As long as every [addToQueue] is given an id that no queued item
    carries at that moment, whatever is called on the manager (drain
    passes, removals, clearing, notifications, a reload of the stored
    queue), the queue keeps holding each object once, every object
    allocated, and no two items with the same id, in memory and in
    storage. *)
Theorem distinct_ids_are_kept calls st :
  wf st → storedDistinct st → freshIds calls st →
  wf (run calls st)
  ∧ NoDup (syncQueue (this (run calls st)))
  ∧ length (queueItems (run calls st)) = length (syncQueue (this (run calls st)))
  ∧ NoDup (id <$> queueItems (run calls st))
  ∧ storedDistinct (run calls st).
Proof.
  intros Hwf Hsd Hfresh.
  destruct (run_distinct calls st Hwf Hsd Hfresh) as [Hwf' Hsd'].
  split_and!; try done.
  - apply Hwf'.
  - unfold queueItems. destruct Hwf' as [_ Ha _].
    induction (syncQueue (this (run calls st))) as [|l q IH]; [done|].
    destruct (Ha l) as [item Hl]; [left|]. csimpl. rewrite Hl. simpl.
    f_equal. apply IH. intros l' Hl'. apply Ha. by right.
  - by apply wf_NoDup_ids.
Qed.

(** Two operations enqueued offline with different ids, the network comes
    back and the first delivery fails, then the stored queue is loaded
    again. *)
Lemma distinct_ids_are_kept_witness :
  wf offlineManager ∧ storedDistinct offlineManager
  ∧ freshIds [CAddToQueue (enqueueAt 1001 Resolves) attendanceU1;
              CAddToQueue (enqueueAt 1002 Resolves) attendanceU2;
              CNetInfo firstFails connected;
              CInitialize Resolves (Ok connected)] offlineManager
  ∧ NoDup (id <$> queueItems
             (run [CAddToQueue (enqueueAt 1001 Resolves) attendanceU1;
                   CAddToQueue (enqueueAt 1002 Resolves) attendanceU2;
                   CNetInfo firstFails connected;
                   CInitialize Resolves (Ok connected)] offlineManager)).
Proof.
  assert (wf offlineManager) as Hwf by (by apply wf_empty_queue).
  assert (storedDistinct offlineManager) as Hsd.
  { intros items Hs. discriminate Hs. }
  assert (freshIds [CAddToQueue (enqueueAt 1001 Resolves) attendanceU1;
                    CAddToQueue (enqueueAt 1002 Resolves) attendanceU2;
                    CNetInfo firstFails connected;
                    CInitialize Resolves (Ok connected)] offlineManager) as Hfresh.
  { split.
    { intros l Hl. by apply elem_of_nil in Hl. }
    split.
    { intros l Hl. apply list_elem_of_singleton in Hl. rewrite Hl. discriminate. }
    repeat split. }
  split; [exact Hwf|]. split; [exact Hsd|]. split; [exact Hfresh|].
  exact (proj1 (proj2 (proj2 (proj2
           (distinct_ids_are_kept _ offlineManager Hwf Hsd Hfresh))))).
Defined.

(** ** Statuses and counts *)

Lemma eligible_status maxR item :
  eligible maxR item = true ↔
  status item = "pending" ∨ (status item = "failed" ∧ retries item < maxR).
Proof.
  unfold eligible. rewrite orb_true_iff, andb_true_iff.
  rewrite !bool_decide_eq_true. tauto.
Qed.

(** X11. From a state in which every queued item is eligible (such as a
    new manager), whatever is called on the manager, every item of the
    queue has status ['pending'] or status ['failed'] with a retry counter
    below [maxRetries]: the manager never keeps an item that its next
    pass would skip. *)
Theorem queued_items_stay_eligible calls st :
  0 ≤ maxRetries (this st) → allEligible st →
  ∀ l item,
    l ∈ syncQueue (this (run calls st)) →
    heap (world (run calls st)) !! l = Some item →
    status item = "pending"
    ∨ (status item = "failed" ∧ retries item < maxRetries (this st)).
Proof.
  intros Hmax Hel l item Hl Hitem.
  destruct (run_allEligible calls st Hmax Hel) as [Hlive _].
  rewrite <- (run_maxRetries calls st). apply eligible_status.
  by eapply Hlive.
Qed.

(** A new manager on which an operation is enqueued and fails twice. *)
Lemma queued_items_stay_eligible_witness :
  0 ≤ maxRetries (this newManager) ∧ allEligible newManager
  ∧ (status <$> queueItems
       (run [CAddToQueue (enqueueAt 1001 Resolves) attendanceU1;
             CSyncAll serverDown] newManager)) = ["failed"]
  ∧ ∀ l item,
      l ∈ syncQueue (this (run [CAddToQueue (enqueueAt 1001 Resolves) attendanceU1;
                                CSyncAll serverDown] newManager)) →
      heap (world (run [CAddToQueue (enqueueAt 1001 Resolves) attendanceU1;
                        CSyncAll serverDown] newManager)) !! l = Some item →
      status item = "pending"
      ∨ (status item = "failed" ∧ retries item < maxRetries (this newManager)).
Proof.
  assert (0 ≤ maxRetries (this newManager)) as Hmax by discriminate.
  split; [exact Hmax|]. split; [exact allEligible_newManager|].
  split; [reflexivity|].
  exact (queued_items_stay_eligible _ newManager Hmax allEligible_newManager).
Defined.

Lemma allocated_length st :
  allocated st → length (queueItems st) = length (syncQueue (this st)).
Proof.
  unfold queueItems, allocated. intros Ha.
  induction (syncQueue (this st)) as [|l q IH]; [done|].
  destruct (Ha l) as [item Hl]; [left|]. csimpl. rewrite Hl. simpl.
  f_equal. apply IH. intros l' Hl'. apply Ha. by right.
Qed.

Lemma status_partition (items : list QueueItem) :
  Forall (λ i, status i = "pending" ∨ status i = "failed") items →
  (length (filter (λ i, status i = "pending") items)
   + length (filter (λ i, status i = "failed") items))%nat
  = length items.
Proof.
  induction 1 as [|item items [Hs|Hs] _ IH]; [done| |].
  - rewrite filter_cons_True by done.
    rewrite (filter_cons_False (λ i, status i = "failed")) by (by rewrite Hs).
    simpl. lia.
  - rewrite filter_cons_False by (by rewrite Hs).
    rewrite (filter_cons_True (λ i, status i = "failed")) by done.
    simpl. lia.
Qed.

(** X12. When every queued item is eligible (which the manager keeps
    true), the counts of [getQueueStatus] add up: [pending + failed] is
    [total].  So the banner of [OfflineIndicator], hidden when
    [isOnline && pending === 0 && failed === 0], is hidden exactly when it
    holds an online flag and the queue is empty. *)
Theorem queue_status_counts_add_up st :
  allocated st →
  liveInv (λ item, eligible (maxRetries (this st)) item = true)
          (heap (world st)) (syncQueue (this st)) →
  (qs_pending (getQueueStatus st) + qs_failed (getQueueStatus st))%nat
  = qs_total (getQueueStatus st)
  ∧ ∀ b, indicatorHidden b (getQueueStatus st) = true
         ↔ truthy b = true ∧ syncQueue (this st) = [].
Proof.
  intros Ha Hel.
  assert ((qs_pending (getQueueStatus st) + qs_failed (getQueueStatus st))%nat
          = qs_total (getQueueStatus st)) as Hsum.
  { simpl. rewrite <- (allocated_length st Ha). apply status_partition.
    apply liveInv_queueItems in Hel. eapply Forall_impl; [exact Hel|].
    intros item Hi. apply eligible_status in Hi. tauto. }
  split; [done|]. intros b. unfold indicatorHidden.
  rewrite !andb_true_iff, !bool_decide_eq_true. split.
  - intros [[Hb Hp] Hf]. split; [done|].
    rewrite Hp, Hf in Hsum. simpl in Hsum.
    by apply nil_length_inv.
  - intros [Hb Hq]. unfold getQueueStatus, queueItems. rewrite Hq. done.
Qed.

(** One item queued: one pending, none failed, banner shown. *)
Lemma queue_status_counts_add_up_witness :
  allocated oneQueued
  ∧ liveInv (λ item, eligible (maxRetries (this oneQueued)) item = true)
            (heap (world oneQueued)) (syncQueue (this oneQueued))
  ∧ (qs_pending (getQueueStatus oneQueued)
     + qs_failed (getQueueStatus oneQueued))%nat = 1%nat
  ∧ indicatorHidden (Some true) (getQueueStatus oneQueued) = false.
Proof.
  assert (allocated oneQueued) as Ha by exact (wf_alloc _ wf_oneQueued).
  assert (liveInv (λ item, eligible (maxRetries (this oneQueued)) item = true)
                  (heap (world oneQueued)) (syncQueue (this oneQueued))) as Hel.
  { intros l item Hl. apply list_elem_of_singleton in Hl. rewrite Hl.
    intros Hitem. injection Hitem as Hitem. rewrite <- Hitem. reflexivity. }
  split; [exact Ha|]. split; [exact Hel|].
  split.
  - exact (proj1 (queue_status_counts_add_up oneQueued Ha Hel)).
  - reflexivity.
Defined.

Lemma filter_none {A} (P : A → Prop) `{!∀ x, Decision (P x)} (l : list A) :
  (∀ x, x ∈ l → ¬ P x) → filter P l = [].
Proof.
  induction l as [|a l IH]; intros HP; [done|].
  rewrite filter_cons_False by (apply HP; left).
  apply IH. intros x Hx. apply HP. by right.
Qed.

Lemma kept_items_are_failed env st :
  canDrain st = true → wf st →
  liveInv (λ item, eligible (maxRetries (this st)) item = true)
          (heap (world st)) (syncQueue (this st)) →
  Forall (λ item, status item = "failed") (queueItems (syncAll env st).1)
  ∧ allocated (syncAll env st).1
  ∧ syncQueue (this (syncAll env st).1) = withFate isFailedKept env st.
Proof.
  intros Hc Hwf Hel.
  destruct (pass_spec env st Hc Hwf) as (results & _ & Hpd).
  pose proof (PassDone_wf _ _ _ _ Hwf Hpd) as Hwf'.
  destruct Hpd. split_and!; [|exact (wf_alloc _ Hwf')|].
  - apply Forall_forall. intros item' (l & Hl & Hitem')%list_elem_of_omap.
    rewrite pd_queue0 in Hl. unfold withFate in Hl.
    apply list_elem_of_filter in Hl as [Hstay Hl].
    destruct (wf_alloc _ Hwf l Hl) as [item Hitem].
    rewrite pd_heap0, decide_True, Hitem in Hitem' by done.
    simpl in Hitem'. injection Hitem' as <-.
    unfold fateAt in Hstay. rewrite Hitem in Hstay.
    specialize (Hel l item Hl Hitem). apply (fate_eligible env _ l) in Hel.
    unfold itemAfter.
    by destruct (fate env _ l item) as [| |m|m].
  - rewrite pd_queue0. apply filter_ext_elem. intros l Hl.
    destruct (wf_alloc _ Hwf l Hl) as [item Hitem].
    specialize (Hel l item Hl Hitem). apply (fate_eligible env _ l) in Hel.
    unfold fateAt. rewrite Hitem. by destruct (fate _ _ _ _).
Qed.

(** X13. After a pass that runs on a queue whose items were all eligible,
    no item is left with status ['pending']: [getQueueStatus] reports
    [pending = 0] and [failed = total], the number of items that failed
    and stay below [maxRetries].  The Sync button of [OfflineIndicator],
    rendered when [isOnline && pending > 0 && !syncing], is therefore not
    rendered for a status read after the pass, even when failed items
    remain to be retried. *)
Theorem no_item_is_pending_after_a_pass env st :
  canDrain st = true → wf st →
  liveInv (λ item, eligible (maxRetries (this st)) item = true)
          (heap (world st)) (syncQueue (this st)) →
  Forall (λ item, status item = "failed") (queueItems (syncAll env st).1)
  ∧ qs_pending (getQueueStatus (syncAll env st).1) = 0%nat
  ∧ qs_failed (getQueueStatus (syncAll env st).1)
    = qs_total (getQueueStatus (syncAll env st).1)
  ∧ qs_total (getQueueStatus (syncAll env st).1)
    = length (withFate isFailedKept env st)
  ∧ ∀ b, syncButtonShown b (getQueueStatus (syncAll env st).1) = false.
Proof.
  intros Hc Hwf Hel.
  destruct (kept_items_are_failed env st Hc Hwf Hel) as (Hfailed & Ha & Hq).
  assert (qs_pending (getQueueStatus (syncAll env st).1) = 0%nat) as Hp.
  { simpl. rewrite filter_none; [done|].
    intros item Hitem Hs. rewrite Forall_forall in Hfailed.
    rewrite (Hfailed item Hitem) in Hs. discriminate. }
  split_and!; try done.
  - simpl. rewrite filter_all.
    + by apply allocated_length.
    + by apply Forall_forall.
  - simpl. by rewrite Hq.
  - intros b. unfold syncButtonShown. rewrite Hp. simpl.
    by rewrite andb_false_r.
Qed.

(** Two items, the first one fails: one failed item, none pending, no
    Sync button. *)
Lemma no_item_is_pending_after_a_pass_witness :
  canDrain twoQueued = true ∧ wf twoQueued
  ∧ liveInv (λ item, eligible (maxRetries (this twoQueued)) item = true)
            (heap (world twoQueued)) (syncQueue (this twoQueued))
  ∧ getQueueStatus (syncAll firstFails twoQueued).1
    = {| qs_total := 1; qs_pending := 0; qs_failed := 1; qs_syncing := false |}
  ∧ syncButtonShown (Some true) (getQueueStatus (syncAll firstFails twoQueued).1)
    = false.
Proof.
  assert (liveInv (λ item, eligible (maxRetries (this twoQueued)) item = true)
                  (heap (world twoQueued)) (syncQueue (this twoQueued))) as Hel.
  { intros l item Hl.
    apply elem_of_cons in Hl as [Hl|Hl];
      [|apply list_elem_of_singleton in Hl]; rewrite Hl;
      intros Hitem; injection Hitem as Hitem; rewrite <- Hitem; reflexivity. }
  split; [reflexivity|]. split; [exact wf_twoQueued|]. split; [exact Hel|].
  split; [reflexivity|].
  exact (proj2 (proj2 (proj2 (proj2
           (no_item_is_pending_after_a_pass firstFails twoQueued
              eq_refl wf_twoQueued Hel)))) (Some true)).
Defined.

(** ** Removing an item, again *)

(** X14. [removeQueueItem(id)] with an id that no queued item carries
    leaves the queue as it is; called a second time with the same id it
    changes nothing more; and an object that carried the removed id is not
    requested by any later pass, nor queued again. *)
Theorem removed_item_is_never_sent write x st :
  wf st →
  ((∀ l, l ∈ syncQueue (this st) → idAt (heap (world st)) l ≠ Some x) →
   syncQueue (this (removeQueueItem write x st)) = syncQueue (this st))
  ∧ (∀ write',
       syncQueue (this (removeQueueItem write' x (removeQueueItem write x st)))
       = syncQueue (this (removeQueueItem write x st)))
  ∧ (∀ envs l,
       idAt (heap (world st)) l = Some x →
       (l ∉ syncQueue (this (runPasses envs (removeQueueItem write x st))))
       ∧ ∃ extra,
           requests (world (runPasses envs (removeQueueItem write x st)))
           = requests (world st) ++ extra
           ∧ (l ∉ extra)).
Proof.
  intros Hwf.
  assert (syncQueue (this (removeQueueItem write x st))
          = filter (λ l, idAt (heap (world st)) l ≠ Some x) (syncQueue (this st)))
    as Hq.
  { unfold removeQueueItem. by rewrite saveQueue_this. }
  assert (heap (world (removeQueueItem write x st)) = heap (world st)) as Hh.
  { unfold removeQueueItem. by rewrite saveQueue_heap. }
  split_and!.
  - intros Hnone. rewrite Hq. by apply filter_all.
  - intros write'. unfold removeQueueItem at 1.
    rewrite saveQueue_this, dropId_queue, Hh.
    apply filter_all. intros l. rewrite Hq, list_elem_of_filter. tauto.
  - intros envs l Hl.
    assert (requests (world (removeQueueItem write x st)) = requests (world st))
      as <-.
    { unfold removeQueueItem. by destruct write. }
    apply unqueued_passes.
    + unfold removeQueueItem. by apply saveQueue_wf, dropId_wf.
    + rewrite Hq, list_elem_of_filter. tauto.
Qed.

(** The first of two queued items is removed, then two passes run: only
    the second item is ever requested. *)
Lemma removed_item_is_never_sent_witness :
  wf twoQueued ∧ idAt (heap (world twoQueued)) 1%positive = Some 1001
  ∧ ∃ extra,
      requests (world (runPasses [serverDown; serverDown]
                                 (removeQueueItem Resolves 1001 twoQueued)))
      = requests (world twoQueued) ++ extra
      ∧ (1%positive ∉ extra).
Proof.
  split; [exact wf_twoQueued|]. split; [reflexivity|].
  exact (proj2 (proj2 (proj2 (removed_item_is_never_sent
                                Resolves 1001 twoQueued wf_twoQueued))
                      [serverDown; serverDown] 1%positive eq_refl)).
Defined.

(** ** The number of requests made for one item *)

Lemma NoDup_count_le_1 (l : loc) (q : list loc) :
  NoDup q → (length (filter (λ l', l' = l) q) ≤ 1)%nat.
Proof.
  induction 1 as [|l0 q Hnin Hnd IH]; [simpl; lia|].
  rewrite filter_cons. case_decide as Heq; [|done].
  subst l0. rewrite filter_none; [simpl; lia|].
  intros l' Hl' ->. done.
Qed.

Lemma pass_on_item env st l item :
  wf st → l ∈ syncQueue (this st) → heap (world st) !! l = Some item →
  ∃ extra,
    requests (world (syncAll env st).1) = requests (world st) ++ extra
    ∧ (length (filter (λ l', l' = l) extra) ≤ 1)%nat
    ∧ ((syncAll env st).1 = st ∧ extra = []
       ∨ (l ∉ syncQueue (this (syncAll env st).1))
       ∨ (l ∈ syncQueue (this (syncAll env st).1)
          ∧ ∃ m, heap (world (syncAll env st).1) !! l = Some (markFailed m item)
                 ∧ retries item + 1 < maxRetries (this st))
       ∨ (l ∈ syncQueue (this (syncAll env st).1)
          ∧ heap (world (syncAll env st).1) !! l = Some item
          ∧ eligible (maxRetries (this st)) item = false
          ∧ l ∉ extra)).
Proof.
  intros Hwf Hl Hitem. destruct (canDrain st) eqn:Hc.
  2:{ exists []. rewrite syncAll_rejected by done. simpl.
      rewrite app_nil_r. split_and!; [done|lia|by left]. }
  destruct (pass_spec env st Hc Hwf) as (results & _ & []).
  exists (withFate isAttempted env st). split_and!; [done| |].
  { apply NoDup_count_le_1, NoDup_filter, Hwf. }
  right.
  assert (fateAt env (maxRetries (this st)) (heap (world st)) l
          = fate env (maxRetries (this st)) l item) as Hfate.
  { unfold fateAt. by rewrite Hitem. }
  destruct (fate env (maxRetries (this st)) l item) as [| |m|m] eqn:Hf.
  - (* not eligible: untouched *)
    right. right. split_and!.
    + rewrite pd_queue0. unfold withFate. rewrite list_elem_of_filter, Hfate.
      done.
    + rewrite pd_heap0, decide_True, Hitem by done. simpl.
      unfold itemAfter. by rewrite Hf.
    + unfold fate in Hf. destruct (eligible _ item); [|done].
      destruct (syncItem _); [done|]. by case_bool_decide.
    + unfold withFate. rewrite list_elem_of_filter, Hfate. by intros [? _].
  - left. rewrite pd_queue0. unfold withFate.
    rewrite list_elem_of_filter, Hfate. by intros [? _].
  - right. left. split.
    + rewrite pd_queue0. unfold withFate. rewrite list_elem_of_filter, Hfate.
      done.
    + exists m. split.
      * rewrite pd_heap0, decide_True, Hitem by done. simpl.
        unfold itemAfter. by rewrite Hf.
      * unfold fate in Hf. destruct (eligible _ item); [|done].
        destruct (syncItem _); [done|]. case_bool_decide; [done|]. lia.
  - left. rewrite pd_queue0. unfold withFate.
    rewrite list_elem_of_filter, Hfate. by intros [? _].
Qed.

(** X15. Whatever the network answers, the passes of one session send at
    most [maxRetries - retries] requests for an object that is queued with
    [retries] failed attempts behind it: at most [maxRetries] for an item
    just enqueued. *)
Theorem item_is_requested_at_most_maxRetries_times l item envs st :
  wf st → l ∈ syncQueue (this st) → heap (world st) !! l = Some item →
  0 ≤ retries item < maxRetries (this st) →
  ∃ extra,
    requests (world (runPasses envs st)) = requests (world st) ++ extra
    ∧ Z.of_nat (length (filter (λ l', l' = l) extra))
      ≤ maxRetries (this st) - retries item.
Proof.
  revert st item.
  induction envs as [|env envs IH]; intros st item Hwf Hl Hitem Hr.
  { exists []. rewrite app_nil_r. split; [done|]. simpl. lia. }
  destruct (pass_on_item env st l item Hwf Hl Hitem)
    as (extra1 & Hreq1 & Hle1 & Hcases).
  pose proof (syncAll_wf env st Hwf) as Hwf1.
  pose proof (syncAll_maxRetries env st Hwf) as Hmax1.
  cbn [runPasses foldl]. fold (runPasses envs (syncAll env st).1).
  destruct Hcases as [[Hsame ->]|[Hout|[(Hin & m & Hh & Hlt)|(Hin & Hh & _ & Hnot)]]].
  - rewrite Hsame. destruct (IH st item Hwf Hl Hitem Hr) as (extra & Hreq & Hle).
    exists extra. by split.
  - destruct (unqueued_passes l envs _ Hwf1 Hout) as (_ & extra2 & Hreq2 & Hnot).
    exists (extra1 ++ extra2). split.
    + by rewrite Hreq2, Hreq1, app_assoc.
    + rewrite filter_app, length_app.
      rewrite (filter_none _ extra2) by (by intros l' Hl' ->).
      simpl. lia.
  - destruct (IH _ (markFailed m item) Hwf1 Hin Hh) as (extra2 & Hreq2 & Hle2).
    { rewrite Hmax1. simpl. lia. }
    exists (extra1 ++ extra2). split.
    + by rewrite Hreq2, Hreq1, app_assoc.
    + rewrite filter_app, length_app. rewrite Hmax1 in Hle2. simpl in Hle2. lia.
  - destruct (IH _ item Hwf1 Hin Hh) as (extra2 & Hreq2 & Hle2).
    { by rewrite Hmax1. }
    exists (extra1 ++ extra2). split.
    + by rewrite Hreq2, Hreq1, app_assoc.
    + rewrite filter_app, length_app.
      rewrite (filter_none _ extra1) by (by intros l' Hl' ->).
      rewrite Hmax1 in Hle2. simpl. lia.
Qed.

(** One item and five passes answered with HTTP 500: three requests. *)
Lemma item_is_requested_at_most_maxRetries_times_witness :
  wf oneQueued ∧ 1%positive ∈ syncQueue (this oneQueued)
  ∧ requests (world (runPasses [serverDown; serverDown; serverDown;
                                serverDown; serverDown] oneQueued))
    = [1%positive; 1%positive; 1%positive]
  ∧ ∃ extra,
      requests (world (runPasses [serverDown; serverDown; serverDown;
                                  serverDown; serverDown] oneQueued))
      = requests (world oneQueued) ++ extra
      ∧ Z.of_nat (length (filter (λ l', l' = 1%positive) extra)) ≤ 3 - 0.
Proof.
  assert (1%positive ∈ syncQueue (this oneQueued)) as Hin.
  { apply list_elem_of_singleton. reflexivity. }
  assert (0 ≤ retries (newQueueItem (enqueueAt 1001 Resolves) attendanceU1)
          < maxRetries (this oneQueued)) as Hr.
  { split; [discriminate|reflexivity]. }
  split; [exact wf_oneQueued|]. split; [exact Hin|]. split; [reflexivity|].
  exact (item_is_requested_at_most_maxRetries_times
           1%positive (newQueueItem (enqueueAt 1001 Resolves) attendanceU1)
           [serverDown; serverDown; serverDown; serverDown; serverDown]
           oneQueued wf_oneQueued Hin eq_refl Hr).
Defined.
